(** * Assistant synchronisation: change detection, planning and execution

    A shallow embedding of [scripts/sync/process_assistants.py]
    (class [AssistantSyncManager] and [main]).

    Modelling decisions.
    - A Python value that can come out of [yaml.safe_load] or
      [response.json()] is a [value]: null, booleans, integers, strings,
      lists and string-keyed mappings.  Floats and YAML timestamps are left
      out.  A Python [str] is a [string] whose characters are the code
      points U+0000..U+00FF.
    - A Python [dict] is an association list in insertion order; a lookup
      reads the first binding of a key and a store replaces it in place or
      appends a new binding, as a [dict] does.
    - A [dict] that is keyed by identity key ([yaml_map], [current_map]) is
      keyed by [hkey], the hash-equality class of the Python key: [True]
      and [1] are the same key, lists and mappings are unhashable.
    - Exceptions are results ([Raise]); the clock, the HTTP session and the
      file system are an environment ([env]) and a [world] that is
      threaded through the effectful methods.  Console output is not
      modelled, and the recovery file is taken to be writable.
    - The remote store is not part of the script.  Where a property needs
      the effect of a batch on the persisted collection, [apply_ops] gives
      it as the specification words it: inserts are added, updates are
      merged into the records with the targeted id. *)

From Stdlib Require Import List String Ascii ZArith NArith Lia Bool.
From Stdlib Require Import DecimalString DecimalZ Permutation.
Import ListNotations.
Local Open Scope string_scope.
Local Open Scope list_scope.

(* ================================================================= *)
(** ** Python values *)

#[local] Set Warnings "-register-all".

Inductive value : Type :=
| VNull
| VBool (b : bool)
| VInt (z : Z)
| VStr (s : string)
| VList (l : list value)
| VDict (d : list (string * value)).

(** Induction on values that reaches the members of lists and mappings. *)
Fixpoint value_ind' (P : value -> Prop)
  (Hnull : P VNull) (Hbool : forall b, P (VBool b)) (Hint : forall z, P (VInt z))
  (Hstr : forall s, P (VStr s))
  (Hlist : forall l, (forall x, In x l -> P x) -> P (VList l))
  (Hdict : forall d, (forall kv, In kv d -> P (snd kv)) -> P (VDict d))
  (v : value) {struct v} : P v :=
  let rec := value_ind' P Hnull Hbool Hint Hstr Hlist Hdict in
  match v with
  | VNull => Hnull
  | VBool b => Hbool b
  | VInt z => Hint z
  | VStr s => Hstr s
  | VList l =>
      Hlist l
        ((fix members (l : list value) : forall x, In x l -> P x :=
            match l with
            | [] => fun x H => match H with end
            | y :: l' => fun x H =>
                match H with
                | or_introl e => eq_ind y P (rec y) x e
                | or_intror H' => members l' x H'
                end
            end) l)
  | VDict d =>
      Hdict d
        ((fix members (d : list (string * value))
            : forall kv, In kv d -> P (snd kv) :=
            match d with
            | [] => fun kv H => match H with end
            | y :: d' => fun kv H =>
                match H with
                | or_introl e => eq_ind y (fun kv => P (snd kv)) (rec (snd y)) kv e
                | or_intror H' => members d' kv H'
                end
            end) d)
  end.

(** A Python [dict] with string keys: the bindings in insertion order. *)
Definition dict : Type := list (string * value).

(** [k in d] and [d[k]]: the first binding of [k]. *)
Fixpoint lookup (k : string) (d : dict) : option value :=
  match d with
  | [] => None
  | (k', v) :: d' => if String.eqb k k' then Some v else lookup k d'
  end.

Definition contains (k : string) (d : dict) : bool :=
  match lookup k d with Some _ => true | None => false end.

(** [d.get(k, dflt)] and [d.get(k)]. *)
Definition get_default (k : string) (dflt : value) (d : dict) : value :=
  match lookup k d with Some v => v | None => dflt end.

Definition get (k : string) (d : dict) : value := get_default k VNull d.

(** [d[k] = v]: an existing key keeps its position, a new key goes last. *)
Fixpoint dict_set (k : string) (v : value) (d : dict) : dict :=
  match d with
  | [] => [(k, v)]
  | (k', v') :: d' =>
      if String.eqb k k' then (k, v) :: d' else (k', v') :: dict_set k v d'
  end.

(** [{**d, k1: v1, ..., kn: vn}]: the display stores the extra items in
    order on a copy of [d]. *)
Definition dict_display (d : dict) (items : dict) : dict :=
  fold_left (fun acc kv => dict_set (fst kv) (snd kv) acc) items d.

(** Truth value of a Python object. *)
Definition truthy (v : value) : bool :=
  match v with
  | VNull => false
  | VBool b => b
  | VInt z => negb (Z.eqb z 0)
  | VStr s => negb (String.eqb s "")
  | VList l => match l with [] => false | _ => true end
  | VDict d => match d with [] => false | _ => true end
  end.

(** [a or b]. *)
Definition py_or (a b : value) : value := if truthy a then a else b.

(* ================================================================= *)
(** ** Exceptions *)

Inductive exn : Type :=
| TypeError
| RequestException
| OtherException.

Inductive result (A : Type) : Type :=
| Ok (a : A)
| Raise (e : exn).
Arguments Ok {A} a.
Arguments Raise {A} e.

Definition rbind {A B : Type} (r : result A) (f : A -> result B) : result B :=
  match r with
  | Ok a => f a
  | Raise e => Raise e
  end.

Notation "x <-- r ;; k" := (rbind r (fun x => k))
  (at level 61, r at next level, right associativity).

(* ================================================================= *)
(** ** Hashable keys *)

(** The key of a [dict] entry up to Python's [hash]/[==]: [True == 1] and
    [False == 0].  Lists and mappings have no hash. *)
Inductive hkey : Type :=
| KNone
| KInt (z : Z)
| KStr (s : string).

Definition hash_key (v : value) : result hkey :=
  match v with
  | VNull => Ok KNone
  | VBool b => Ok (KInt (if b then 1 else 0))
  | VInt z => Ok (KInt z)
  | VStr s => Ok (KStr s)
  | VList _ => Raise TypeError
  | VDict _ => Raise TypeError
  end.

Definition hkey_eqb (a b : hkey) : bool :=
  match a, b with
  | KNone, KNone => true
  | KInt x, KInt y => Z.eqb x y
  | KStr x, KStr y => String.eqb x y
  | _, _ => false
  end.

(** A [dict] keyed by identity key, in insertion order. *)
Definition kmap : Type := list (hkey * dict).

Fixpoint kmap_get (k : hkey) (m : kmap) : option dict :=
  match m with
  | [] => None
  | (k', a) :: m' => if hkey_eqb k k' then Some a else kmap_get k m'
  end.

Definition kmap_mem (k : hkey) (m : kmap) : bool :=
  match kmap_get k m with Some _ => true | None => false end.

Fixpoint kmap_set (k : hkey) (a : dict) (m : kmap) : kmap :=
  match m with
  | [] => [(k, a)]
  | (k', a') :: m' =>
      if hkey_eqb k k' then (k', a) :: m' else (k', a') :: kmap_set k a m'
  end.

(* ================================================================= *)
(** ** [json.dumps(obj, sort_keys=True)]

    The encoder of the Python standard library with its defaults
    ([ensure_ascii=True], separators [", "] and [": "]).  The text is built
    as a list of characters. *)

Definition dquote : ascii := "034"%char.

Definition hex_digit (n : N) : ascii :=
  match n with
  | 0%N => "0" | 1%N => "1" | 2%N => "2" | 3%N => "3"
  | 4%N => "4" | 5%N => "5" | 6%N => "6" | 7%N => "7"
  | 8%N => "8" | 9%N => "9" | 10%N => "a" | 11%N => "b"
  | 12%N => "c" | 13%N => "d" | 14%N => "e" | _ => "f"
  end%char.

(** [ESCAPE_DCT]: the short escapes. *)
Definition escape_dct (c : ascii) : option (list ascii) :=
  match N_of_ascii c with
  | 92%N => Some ["\"; "\"]%char
  | 34%N => Some ["\"%char; dquote]
  | 8%N => Some ["\"; "b"]%char
  | 12%N => Some ["\"; "f"]%char
  | 10%N => Some ["\"; "n"]%char
  | 13%N => Some ["\"; "r"]%char
  | 9%N => Some ["\"; "t"]%char
  | _ => None
  end.

(** [ESCAPE_ASCII] matches a backslash, a double quote and everything
    outside [' '..'~']. *)
Definition escape_ascii_match (c : ascii) : bool :=
  let n := N_of_ascii c in
  (N.eqb n 92 || N.eqb n 34 || N.ltb n 32 || N.ltb 126 n)%bool.

(** ['\\u{0:04x}'.format(n)] for a code point below 256. *)
Definition escape_u (c : ascii) : list ascii :=
  let n := N_of_ascii c in
  ["\"; "u"; "0"; "0"; hex_digit (n / 16); hex_digit (n mod 16)]%char.

Definition escape_char (c : ascii) : list ascii :=
  if escape_ascii_match c then
    match escape_dct c with
    | Some e => e
    | None => escape_u c
    end
  else [c].

(** [py_encode_basestring_ascii]. *)
Definition encode_string (s : string) : list ascii :=
  (dquote :: flat_map escape_char (list_ascii_of_string s)) ++ [dquote].

(** [int.__repr__]. *)
Definition encode_int (z : Z) : list ascii :=
  list_ascii_of_string (NilEmpty.string_of_int (Z.to_int z)).

(** [sorted(dct.items())]: a stable sort on the keys ([<] on [str] is the
    code point order). *)
Fixpoint insert_item {A : Type} (x : string * A) (l : list (string * A))
  : list (string * A) :=
  match l with
  | [] => [x]
  | y :: l' =>
      if String.ltb (fst y) (fst x) then y :: insert_item x l' else x :: l
  end.

Definition sort_items {A : Type} (l : list (string * A)) : list (string * A) :=
  fold_right insert_item [] l.


(** The object as the encoder walks it when [sort_keys] holds: the items
    of every mapping in key order. *)
Fixpoint sort_keys (v : value) : value :=
  match v with
  | VList l => VList (map sort_keys l)
  | VDict d => VDict (sort_items (map (fun kv => (fst kv, sort_keys (snd kv))) d))
  | _ => v
  end.

Definition str (s : string) : list ascii := list_ascii_of_string s.

(** [sep.join(chunks)]. *)
Fixpoint join (sep : list ascii) (chunks : list (list ascii)) : list ascii :=
  match chunks with
  | [] => []
  | [c] => c
  | c :: rest => c ++ sep ++ join sep rest
  end.

(** The encoder proper, items in the order in which they are stored. *)
Fixpoint encode (v : value) : list ascii :=
  match v with
  | VNull => str "null"
  | VBool true => str "true"
  | VBool false => str "false"
  | VInt z => encode_int z
  | VStr s => encode_string s
  | VList l => str "[" ++ join (str ", ") (map encode l) ++ str "]"
  | VDict d =>
      str "{" ++
      join (str ", ")
           (map (fun kv => encode_string (fst kv) ++ str ": " ++ encode (snd kv)) d)
      ++ str "}"
  end.

Definition json_dumps_sorted (v : value) : string :=
  string_of_list_ascii (encode (sort_keys v)).

(** Reading one character of a string literal back: the inverse of
    [escape_char], undefined at the closing quote. *)
Definition hex_value (c : ascii) : option N :=
  let n := N_of_ascii c in
  if (N.leb 48 n && N.leb n 57)%bool then Some (n - 48)%N
  else if (N.leb 97 n && N.leb n 102)%bool then Some (n - 87)%N
  else None.

Definition unescape_char (l : list ascii) : option (ascii * list ascii) :=
  match l with
  | [] => None
  | c :: t =>
      if N.eqb (N_of_ascii c) 34 then None
      else if N.eqb (N_of_ascii c) 92 then
        match t with
        | [] => None
        | e :: t' =>
            match N_of_ascii e with
            | 92%N => Some ("\"%char, t')
            | 34%N => Some (dquote, t')
            | 98%N => Some ("008"%char, t')
            | 102%N => Some ("012"%char, t')
            | 110%N => Some ("010"%char, t')
            | 114%N => Some ("013"%char, t')
            | 116%N => Some ("009"%char, t')
            | 117%N =>
                match t' with
                | _ :: _ :: h1 :: h2 :: t'' =>
                    match hex_value h1, hex_value h2 with
                    | Some a, Some b => Some (ascii_of_N (16 * a + b), t'')
                    | _, _ => None
                    end
                | _ => None
                end
            | _ => None
            end
        end
      else Some (c, t)
  end.

(** The characters of an integer literal. *)
Definition is_num_char (c : ascii) : bool :=
  let n := N_of_ascii c in
  (N.eqb n 45 || (N.leb 48 n && N.leb n 57))%bool.

(** What may follow a value in a text: nothing, or a character that no
    integer literal contains. *)
Definition delimited (r : list ascii) : Prop :=
  match r with
  | [] => True
  | c :: _ => is_num_char c = false
  end.

(** The characters a value can start with. *)
Definition value_start (c : ascii) : bool :=
  let n := N_of_ascii c in
  (N.eqb n 110 || N.eqb n 116 || N.eqb n 102 || N.eqb n 34 || N.eqb n 91
   || N.eqb n 123 || is_num_char c)%bool.

(** Two values are the same JSON data when they agree once the members of
    every mapping are put in key order. *)
Definition same_value (v1 v2 : value) : Prop := sort_keys v1 = sort_keys v2.

(** Two records agree on a field: both lack it, or both store the same
    value under it. *)
Definition same_field (k : string) (r1 r2 : dict) : Prop :=
  match lookup k r1, lookup k r2 with
  | Some v1, Some v2 => same_value v1 v2
  | None, None => True
  | _, _ => False
  end.


(* ================================================================= *)
(** ** [AssistantSyncManager.compute_assistant_hash] *)

Definition key_fields : list string :=
  ["name"; "description"; "url"; "category"; "tags"; "author"].

(** [{k: assistant.get(k) for k in key_fields if k in assistant}]. *)
Definition normalized (assistant : dict) : dict :=
  flat_map (fun k => if contains k assistant then [(k, get k assistant)] else [])
           key_fields.

Definition compute_assistant_hash (assistant : dict) : string :=
  json_dumps_sorted (VDict (normalized assistant)).

(* ================================================================= *)
(** ** [AssistantSyncManager.detect_changes] *)

(** An entry of [updated_assistants]: [{'old': ..., 'new': ...}]. *)
Record update_pair : Type := mk_update { old : dict; new : dict }.

(** The returned mapping with its four fixed keys. *)
Record changes : Type := mk_changes {
  ch_new : list dict;
  ch_updated : list update_pair;
  ch_deleted : list dict;
  ch_unchanged : list dict
}.

(** [assistant.get('name') or assistant.get('id')]. *)
Definition identity_key (assistant : dict) : value :=
  py_or (get "name" assistant) (get "id" assistant).

(** [assistant.get('isActive', True) and not assistant.get('dateDeleted')]. *)
Definition is_live (assistant : dict) : bool :=
  truthy (get_default "isActive" (VBool true) assistant)
  && negb (truthy (get "dateDeleted" assistant)).

(** First loop: [yaml_map]. *)
Fixpoint yaml_map_loop (yaml_assistants : list dict) (yaml_map : kmap)
  : result kmap :=
  match yaml_assistants with
  | [] => Ok yaml_map
  | assistant :: rest =>
      let key := identity_key assistant in
      if truthy key then
        hk <-- hash_key key ;;
        yaml_map_loop rest (kmap_set hk assistant yaml_map)
      else yaml_map_loop rest yaml_map
  end.

(** Second loop: [current_map], live records only. *)
Fixpoint current_map_loop (current_assistants : list dict) (current_map : kmap)
  : result kmap :=
  match current_assistants with
  | [] => Ok current_map
  | assistant :: rest =>
      if is_live assistant then
        let key := identity_key assistant in
        if truthy key then
          hk <-- hash_key key ;;
          current_map_loop rest (kmap_set hk assistant current_map)
        else current_map_loop rest current_map
      else current_map_loop rest current_map
  end.

(** Third loop: new, updated and unchanged, in the order of [yaml_map]. *)
Definition classify_step (current_map : kmap)
  (acc : list dict * list update_pair * list dict) (entry : hkey * dict)
  : list dict * list update_pair * list dict :=
  let '(new_assistants, updated_assistants, unchanged_assistants) := acc in
  let '(key, yaml_assistant) := entry in
  match kmap_get key current_map with
  | None => (new_assistants ++ [yaml_assistant], updated_assistants, unchanged_assistants)
  | Some current =>
      let yaml_hash := compute_assistant_hash yaml_assistant in
      let current_hash := compute_assistant_hash current in
      if negb (String.eqb yaml_hash current_hash) then
        (new_assistants,
         updated_assistants ++ [mk_update current yaml_assistant],
         unchanged_assistants)
      else (new_assistants, updated_assistants, unchanged_assistants ++ [yaml_assistant])
  end.

(** Fourth loop: deleted, in the order of [current_map]. *)
Definition deleted_step (yaml_map : kmap) (deleted_assistants : list dict)
  (entry : hkey * dict) : list dict :=
  let '(key, current_assistant) := entry in
  if negb (kmap_mem key yaml_map) then deleted_assistants ++ [current_assistant]
  else deleted_assistants.

Definition detect_changes (yaml_assistants current_assistants : list dict)
  : result changes :=
  yaml_map <-- yaml_map_loop yaml_assistants [] ;;
  current_map <-- current_map_loop current_assistants [] ;;
  let '(new_assistants, updated_assistants, unchanged_assistants) :=
    fold_left (classify_step current_map) yaml_map ([], [], []) in
  let deleted_assistants := fold_left (deleted_step yaml_map) current_map [] in
  Ok (mk_changes new_assistants updated_assistants deleted_assistants
                 unchanged_assistants).

(* ================================================================= *)
(** ** The environment of a run *)

(** What the script observes of the outside: the clock at each reading,
    the file system, the YAML parser and the HTTP session. *)
Record env : Type := mk_env {
  utcnow_isoformat : nat -> string;
  path_exists : string -> bool;
  yaml_safe_load : string -> result value;
  session_get : string -> result value;
  session_post : string -> value -> result value
}.

Inductive event : Type :=
| EvGet (url : string)
| EvPost (url : string) (payload : value)
| EvWrite (path : string) (payload : value).

Record world : Type := mk_world {
  clock : nat;
  trace : list event
}.

Definition M (A : Type) : Type := world -> result A * world.

Definition ret {A : Type} (a : A) : M A := fun w => (Ok a, w).

Definition raise {A : Type} (e : exn) : M A := fun w => (Raise e, w).

Definition bind {A B : Type} (m : M A) (f : A -> M B) : M B :=
  fun w =>
    match m w with
    | (Ok a, w') => f a w'
    | (Raise e, w') => (Raise e, w')
    end.

Definition lift {A : Type} (r : result A) : M A := fun w => (r, w).

Definition emit (ev : event) : M unit :=
  fun w => (Ok tt, mk_world (clock w) (trace w ++ [ev])).

(** [try: m except exc as e: handler] for the exceptions [catches] selects. *)
Definition try_except {A : Type} (m : M A) (catches : exn -> bool)
  (handler : M A) : M A :=
  fun w =>
    match m w with
    | (Ok a, w') => (Ok a, w')
    | (Raise e, w') => if catches e then handler w' else (Raise e, w')
    end.

Notation "x <- m ;; k" := (bind m (fun x => k))
  (at level 61, m at next level, right associativity).

(** [datetime.utcnow().isoformat()]: one reading of the clock. *)
Definition utcnow (E : env) : M value :=
  fun w => (Ok (VStr (utcnow_isoformat E (clock w))),
            mk_world (S (clock w)) (trace w)).

(* ================================================================= *)
(** ** [AssistantSyncManager.sync_to_cloudflare] *)

Record AssistantSyncManager : Type := mk_manager {
  cloudflare_endpoint : string
}.

(** [x + 1]: defined on [int] and [bool] only. *)
Definition py_add_one (x : value) : result value :=
  match x with
  | VInt z => Ok (VInt (z + 1))
  | VBool b => Ok (VInt ((if b then 1 else 0) + 1))
  | _ => Raise TypeError
  end.

Definition insert_op (data : dict) : value :=
  VDict [("action", VStr "insert"); ("data", VDict data)].

Definition update_op (id : value) (data : dict) : value :=
  VDict [("action", VStr "update"); ("id", id); ("data", VDict data)].

(** [for assistant in changes['new']]. *)
Fixpoint plan_new (E : env) (l : list dict) (operations : list value)
  : M (list value) :=
  match l with
  | [] => ret operations
  | assistant :: rest =>
      t <- utcnow E ;;
      plan_new E rest
        (operations ++
         [insert_op (dict_display assistant
            [("isActive", VBool true); ("dateAdded", t); ("version", VInt 1)])])
  end.

(** [for update in changes['updated']]. *)
Fixpoint plan_updated (E : env) (l : list update_pair) (operations : list value)
  : M (list value) :=
  match l with
  | [] => ret operations
  | update :: rest =>
      let old := old update in
      let new := new update in
      t1 <- utcnow E ;;
      let operations1 :=
        operations ++
        [update_op (get "id" old)
           [("isActive", VBool false); ("dateDeactivated", t1)]] in
      t2 <- utcnow E ;;
      version <- lift (py_add_one (get_default "version" (VInt 0) old)) ;;
      plan_updated E rest
        (operations1 ++
         [insert_op (dict_display new
            [("isActive", VBool true); ("dateAdded", t2);
             ("version", version); ("previousVersion", get "id" old)])])
  end.

(** [for assistant in changes['deleted']]. *)
Fixpoint plan_deleted (E : env) (l : list dict) (operations : list value)
  : M (list value) :=
  match l with
  | [] => ret operations
  | assistant :: rest =>
      t <- utcnow E ;;
      plan_deleted E rest
        (operations ++
         [update_op (get "id" assistant)
            [("dateDeleted", t); ("isActive", VBool false)]])
  end.

(** The three loops that fill [operations]. *)
Definition plan (E : env) (c : changes) : M (list value) :=
  ops1 <- plan_new E (ch_new c) [] ;;
  ops2 <- plan_updated E (ch_updated c) ops1 ;;
  plan_deleted E (ch_deleted c) ops2.

Definition is_request_exception (e : exn) : bool :=
  match e with RequestException => true | _ => false end.

Definition failed_sync_file : string := "failed_sync_operations.json".

(** The part after the loops: the empty check and the [try] block. *)
Definition submit (E : env) (self : AssistantSyncManager)
  (operations : list value) : M bool :=
  match operations with
  | [] => ret true
  | _ =>
      t <- utcnow E ;;
      let payload :=
        VDict [("operations", VList operations);
               ("source", VStr "awesome-assistants-sync");
               ("timestamp", t)] in
      let url := (cloudflare_endpoint self ++ "/sync")%string in
      try_except
        (_ <- emit (EvPost url payload) ;;
         _ <- lift (session_post E url payload) ;;
         ret true)
        is_request_exception
        (_ <- emit (EvWrite failed_sync_file payload) ;;
         ret false)
  end.

Definition sync_to_cloudflare (E : env) (self : AssistantSyncManager)
  (c : changes) : M bool :=
  operations <- plan E c ;;
  submit E self operations.

(* ================================================================= *)
(** ** Loading, fetching, [run_sync] and [main] *)

(** [len(x)] as far as it can fail. *)
Definition py_len_check (x : value) : result unit :=
  match x with
  | VNull | VBool _ | VInt _ => Raise TypeError
  | _ => Ok tt
  end.

(** What [for assistant in xs: assistant.get(...)] walks over: the members
    of a list, which must be mappings; an empty string or mapping has no
    member, a non-empty one has members without [get].  Which exception
    ends the walk is not told apart: [run_sync] treats them all alike. *)
Fixpoint as_dicts (l : list value) : result (list dict) :=
  match l with
  | [] => Ok []
  | VDict d :: l' => ds <-- as_dicts l' ;; Ok (d :: ds)
  | _ :: _ => Raise OtherException
  end.

Definition as_records (x : value) : result (list dict) :=
  match x with
  | VList l => as_dicts l
  | VStr EmptyString => Ok []
  | VDict [] => Ok []
  | _ => Raise OtherException
  end.

Definition load_yaml_assistants (E : env) (file_path : string) : M value :=
  data <- lift (yaml_safe_load E file_path) ;;
  match data with
  | VDict d =>
      let assistants := get_default "assistants" (VList []) d in
      _ <- lift (py_len_check assistants) ;;
      ret assistants
  | _ => raise OtherException
  end.

Definition fetch_current_assistants (E : env) (self : AssistantSyncManager)
  : M value :=
  try_except
    (_ <- emit (EvGet (cloudflare_endpoint self)) ;;
     data <- lift (session_get E (cloudflare_endpoint self)) ;;
     let assistants :=
       match data with
       | VDict d => get_default "assistants" (VList []) d
       | _ => data
       end in
     _ <- lift (py_len_check assistants) ;;
     ret assistants)
    is_request_exception
    (ret (VList [])).

(** The first three steps of the [try] block of [run_sync]: load, fetch,
    detect. *)
Definition gather_changes (E : env) (self : AssistantSyncManager)
  (yaml_file : string) : M changes :=
  yaml_assistants <- load_yaml_assistants E yaml_file ;;
  current_assistants <- fetch_current_assistants E self ;;
  lift (ys <-- as_records yaml_assistants ;;
        cs <-- as_records current_assistants ;;
        detect_changes ys cs).

(** The [try] block of [run_sync]. *)
Definition run_sync_steps (E : env) (self : AssistantSyncManager)
  (yaml_file : string) : M bool :=
  changes <- gather_changes E self yaml_file ;;
  sync_to_cloudflare E self changes.

(** [except Exception] catches every exception of the model. *)
Definition run_sync (E : env) (self : AssistantSyncManager) (yaml_file : string)
  : M bool :=
  try_except (run_sync_steps E self yaml_file) (fun _ => true) (ret false).

(** The parsed command line. *)
Record args : Type := mk_args {
  arg_file : string;
  arg_cloudflare_endpoint : string;
  arg_dry_run : bool
}.

(** [main]: the result is the status given to [sys.exit]. *)
Definition main (E : env) (a : args) : M Z :=
  if negb (path_exists E (arg_file a)) then ret 1%Z
  else
    success <- run_sync E (mk_manager (arg_cloudflare_endpoint a)) (arg_file a) ;;
    ret (if success then 0%Z else 1%Z).

Definition initial_world : world := mk_world 0 [].

(* ================================================================= *)
(** ** Closed forms of the planning loops *)

(** The operations [plan_new] appends when the clock reads [n]. *)
Fixpoint new_ops (E : env) (l : list dict) (n : nat) : list value :=
  match l with
  | [] => []
  | assistant :: rest =>
      insert_op (dict_display assistant
        [("isActive", VBool true); ("dateAdded", VStr (utcnow_isoformat E n));
         ("version", VInt 1)])
      :: new_ops E rest (S n)
  end.

Definition deactivate_op (E : env) (old : dict) (n : nat) : value :=
  update_op (get "id" old)
    [("isActive", VBool false); ("dateDeactivated", VStr (utcnow_isoformat E n))].

Definition successor_data (E : env) (old new : dict) (version : value) (n : nat)
  : dict :=
  dict_display new
    [("isActive", VBool true); ("dateAdded", VStr (utcnow_isoformat E n));
     ("version", version); ("previousVersion", get "id" old)].

(** The operations [plan_updated] appends, when no version addition fails. *)
Fixpoint updated_ops (E : env) (l : list update_pair) (n : nat)
  : result (list value) :=
  match l with
  | [] => Ok []
  | u :: rest =>
      version <-- py_add_one (get_default "version" (VInt 0) (old u)) ;;
      tail <-- updated_ops E rest (S (S n)) ;;
      Ok (deactivate_op E (old u) n
          :: insert_op (successor_data E (old u) (new u) version (S n))
          :: tail)
  end.

Fixpoint deleted_ops (E : env) (l : list dict) (n : nat) : list value :=
  match l with
  | [] => []
  | assistant :: rest =>
      update_op (get "id" assistant)
        [("dateDeleted", VStr (utcnow_isoformat E n)); ("isActive", VBool false)]
      :: deleted_ops E rest (S n)
  end.

(** The request body of the write endpoint. *)
Definition sync_payload (E : env) (operations : list value) (n : nat) : value :=
  VDict [("operations", VList operations);
         ("source", VStr "awesome-assistants-sync");
         ("timestamp", VStr (utcnow_isoformat E n))].

Definition sync_url (self : AssistantSyncManager) : string :=
  (cloudflare_endpoint self ++ "/sync")%string.

(* ================================================================= *)
(** ** Keys and closed forms of the diff *)

(** The key under which [detect_changes] files a record, if any. *)
Definition record_key (assistant : dict) : option hkey :=
  if truthy (identity_key assistant) then
    match hash_key (identity_key assistant) with
    | Ok k => Some k
    | Raise _ => None
    end
  else None.

(** The keys of the records of a collection that have one. *)
Definition keys_of (l : list dict) : list hkey :=
  flat_map (fun a => match record_key a with Some k => [k] | None => [] end) l.



(** The invariant of [yaml_map] and [current_map]: distinct keys, every
    record filed under its own key. *)
Definition kmap_ok (m : kmap) : Prop :=
  NoDup (map fst m) /\ forall k a, In (k, a) m -> record_key a = Some k.

(** What the third and fourth loops of [detect_changes] collect. *)
Definition new_of (current_map yaml_map : kmap) : list dict :=
  flat_map (fun e => match kmap_get (fst e) current_map with
                     | None => [snd e]
                     | Some _ => []
                     end) yaml_map.

Definition updated_of (current_map yaml_map : kmap) : list update_pair :=
  flat_map (fun e => match kmap_get (fst e) current_map with
                     | None => []
                     | Some current =>
                         if negb (String.eqb (compute_assistant_hash (snd e))
                                             (compute_assistant_hash current))
                         then [mk_update current (snd e)] else []
                     end) yaml_map.

Definition unchanged_of (current_map yaml_map : kmap) : list dict :=
  flat_map (fun e => match kmap_get (fst e) current_map with
                     | None => []
                     | Some current =>
                         if negb (String.eqb (compute_assistant_hash (snd e))
                                             (compute_assistant_hash current))
                         then [] else [snd e]
                     end) yaml_map.

Definition deleted_of (yaml_map current_map : kmap) : list dict :=
  flat_map (fun e => if negb (kmap_mem (fst e) yaml_map) then [snd e] else [])
           current_map.


(* ================================================================= *)
(** ** The remote store *)

(** Equality of values, member by member. *)
Fixpoint value_eqb (a b : value) {struct a} : bool :=
  match a, b with
  | VNull, VNull => true
  | VBool x, VBool y => Bool.eqb x y
  | VInt x, VInt y => Z.eqb x y
  | VStr x, VStr y => String.eqb x y
  | VList l1, VList l2 =>
      (fix all2 (l1 l2 : list value) : bool :=
         match l1, l2 with
         | [], [] => true
         | x :: l1', y :: l2' => value_eqb x y && all2 l1' l2'
         | _, _ => false
         end) l1 l2
  | VDict d1, VDict d2 =>
      (fix all2 (d1 d2 : list (string * value)) : bool :=
         match d1, d2 with
         | [], [] => true
         | (k, x) :: d1', (k', y) :: d2' =>
             String.eqb k k' && value_eqb x y && all2 d1' d2'
         | _, _ => false
         end) d1 d2
  | _, _ => false
  end.

(** Modelled from the spec: what an update operation targets.  The write
    endpoint of the remote store is not among the sources; an update
    names its target by [id], so its targets are the records that store
    that id. *)
Definition id_targets (id : value) (r : dict) : bool :=
  match lookup "id" r with
  | Some v => value_eqb v id
  | None => false
  end.

(** Modelled from the spec: the effect of one operation on the persisted
    collection.  The write endpoint of the remote store is not among the
    sources; an insert adds its data as a record after the existing ones,
    an update merges its data into the targeted records, and the store
    removes nothing. *)
Definition apply_op (store : list dict) (op : value) : list dict :=
  match op with
  | VDict o =>
      match lookup "action" o, lookup "data" o with
      | Some (VStr action), Some (VDict data) =>
          if String.eqb action "insert" then store ++ [data]
          else if String.eqb action "update" then
            map (fun r => if id_targets (get "id" o) r then dict_display r data
                          else r) store
          else store
      | _, _ => store
      end
  | _ => store
  end.

(** Modelled from the spec: a batch is applied operation by operation, in
    the order of the sequence. *)
Definition apply_ops (store : list dict) (ops : list value) : list dict :=
  fold_left apply_op ops store.

(** The two shapes of operation the planner emits. *)
Inductive op : Type :=
| OpInsert (data : dict)
| OpUpdate (id : value) (data : dict).

Definition op_value (o : op) : value :=
  match o with
  | OpInsert data => insert_op data
  | OpUpdate id data => update_op id data
  end.

(** [apply_op] on an operation of either shape. *)
Definition apply_typed (store : list dict) (o : op) : list dict :=
  match o with
  | OpInsert data => store ++ [data]
  | OpUpdate id data =>
      map (fun r => if id_targets id r then dict_display r data else r) store
  end.

Definition inserts (ops : list op) : list dict :=
  flat_map (fun o => match o with OpInsert d => [d] | OpUpdate _ _ => [] end) ops.

Definition targets (ops : list op) : list value :=
  flat_map (fun o => match o with OpInsert _ => [] | OpUpdate i _ => [i] end) ops.

(** No update of the list targets the record. *)
Definition spared (ids : list value) (r : dict) : bool :=
  forallb (fun i => negb (id_targets i r)) ids.

(** An update with this data leaves no record live. *)
Definition deactivating (data : dict) : Prop :=
  forall r, is_live (dict_display r data) = false.

(** The fields the planner sets on an inserted record. *)
Definition bookkeeping : list string :=
  ["isActive"; "dateAdded"; "version"; "previousVersion"].

(** [d'] is [d] as the planner inserts it: active, and the same outside
    the bookkeeping fields. *)
Definition inserted_from (d d' : dict) : Prop :=
  lookup "isActive" d' = Some (VBool true) /\
  forall k, ~ In k bookkeeping -> lookup k d' = lookup k d.

(** One can be added to the version read off every old record. *)
Definition addable_versions (c : changes) : Prop :=
  forall u, In u (ch_updated c) ->
    exists x, py_add_one (get_default "version" (VInt 0) (old u)) = Ok x.

(** A run used in examples: a fixed clock, no file, a dead network. *)
Definition quiet_env : env :=
  mk_env (fun _ => "2024-01-01T00:00:00") (fun _ => false)
         (fun _ => Raise OtherException) (fun _ => Raise RequestException)
         (fun _ _ => Raise RequestException).

(** A declared record whose url changed, against a persisted record with
    a version and against one without. *)
Definition declared_a : dict := [("name", VStr "A"); ("url", VStr "u2")].

Definition persisted_a : dict :=
  [("name", VStr "A"); ("url", VStr "u1"); ("id", VInt 7); ("version", VInt 1);
   ("isActive", VBool true)].

Definition unversioned_a : dict :=
  [("name", VStr "A"); ("url", VStr "u1"); ("id", VInt 7)].

Definition versioned_update : changes :=
  mk_changes [] [mk_update persisted_a declared_a] [] [].


(** Two records that read the same under [get] for every tracked field:
    one stores a null author, the other stores none. *)
Definition null_author : dict := [("name", VStr "A"); ("author", VNull)].

Definition no_author : dict := [("name", VStr "A")].


(** A declared record that stores the id of an unrelated live record. *)
Definition declared_n : dict := [("name", VStr "N"); ("id", VInt 9)].

Definition persisted_z : dict :=
  [("name", VStr "Z"); ("id", VInt 9); ("isActive", VBool true)].

(* ================================================================= *)
(** ** Notions used to describe the diff and a run *)

(** The record a [dict] keyed by identity key ends up holding for [k]
    after the records of [l] are stored in order: the last one filed
    under [k]. *)
Definition last_keyed (k : hkey) (l : list dict) : option dict :=
  fold_left (fun found a =>
               match record_key a with
               | Some k' => if hkey_eqb k k' then Some a else found
               | None => found
               end) l None.

Definition hkey_mem (k : hkey) (l : list hkey) : bool := existsb (hkey_eqb k) l.

(** The keys of [l] without repetition, each at its first occurrence:
    the order in which a [dict] iterates after the keys are stored. *)
Definition seen_order (l : list hkey) : list hkey :=
  fold_left (fun seen k => if hkey_mem k seen then seen else seen ++ [k]) l [].

(** The keys of [keys], listed in the order of [order]. *)
Definition listed_in (order keys : list hkey) : Prop :=
  keys = filter (fun k => hkey_mem k keys) order.

(** [same_field] as a test. *)
Definition same_field_b (k : string) (r1 r2 : dict) : bool :=
  match lookup k r1, lookup k r2 with
  | Some v1, Some v2 => value_eqb (sort_keys v1) (sort_keys v2)
  | None, None => true
  | _, _ => false
  end.


(** The characters [' '..'~']. *)
Definition printable (c : ascii) : bool :=
  (N.leb 32 (N_of_ascii c) && N.leb (N_of_ascii c) 126)%bool.

(** A run whose declared file holds [declared_a], whose read endpoint is
    down and whose write endpoint accepts. *)
Definition first_sync_env : env :=
  mk_env (fun _ => "2024-01-01T00:00:00") (fun _ => true)
         (fun _ => Ok (VDict [("assistants", VList [VDict declared_a])]))
         (fun _ => Raise RequestException)
         (fun _ _ => Ok (VDict [("ok", VBool true)])).

Definition dry_run_args : args :=
  mk_args "assistants.yaml" "https://worker.example" true.

(** An Updated pair whose old record stores a version that is a string. *)
Definition text_version_update : changes :=
  mk_changes []
    [mk_update (unversioned_a ++ [("version", VStr "1")]) declared_a] [] [].

(* ================================================================= *)
(** * Properties *)

(** ** The model on small inputs *)

Example dumps_list :
  json_dumps_sorted (VList [VInt 1; VNull; VBool true; VInt (-12); VList []])
  = "[1, null, true, -12, []]".
Proof. reflexivity. Qed.

Example dumps_sorts_keys :
  json_dumps_sorted (VDict [("url", VInt 2); ("name", VInt 1)])
  = json_dumps_sorted (VDict [("name", VInt 1); ("url", VInt 2)]).
Proof. reflexivity. Qed.

Example dumps_escapes :
  encode_string (String "010"%char (String "233"%char "a\"))
  = dquote :: list_ascii_of_string "\n\u00e9a\\" ++ [dquote].
Proof. reflexivity. Qed.

(** A declared record against an empty store is New and is inserted with
    version 1. *)
Example first_sync :
  detect_changes [declared_a] [] = Ok (mk_changes [declared_a] [] [] []) /\
  fst (plan quiet_env (mk_changes [declared_a] [] [] []) initial_world)
  = Ok [insert_op [("name", VStr "A"); ("url", VStr "u2");
                   ("isActive", VBool true);
                   ("dateAdded", VStr "2024-01-01T00:00:00");
                   ("version", VInt 1)]].
Proof. split; reflexivity. Qed.

(** A changed url against the persisted version 1: the old record is
    deactivated and version 2 inserted. *)
Example changed_url :
  detect_changes [declared_a] [persisted_a] = Ok versioned_update /\
  fst (plan quiet_env versioned_update initial_world)
  = Ok [update_op (VInt 7)
          [("isActive", VBool false);
           ("dateDeactivated", VStr "2024-01-01T00:00:00")];
        insert_op [("name", VStr "A"); ("url", VStr "u2");
                   ("isActive", VBool true);
                   ("dateAdded", VStr "2024-01-01T00:00:00");
                   ("version", VInt 2); ("previousVersion", VInt 7)]].
Proof. split; reflexivity. Qed.

(** A live record that is no longer declared is Deleted; one that is
    inactive already is left alone. *)
Example no_longer_declared :
  detect_changes [] [persisted_a] = Ok (mk_changes [] [] [persisted_a] []) /\
  detect_changes [] [[("name", VStr "A"); ("id", VInt 7); ("isActive", VBool false)]]
  = Ok (mk_changes [] [] [] []).
Proof. split; reflexivity. Qed.

(** A list used as a name cannot be a key. *)
Example unhashable_name :
  detect_changes [[("name", VList [VStr "A"])]] [] = Raise TypeError.
Proof. reflexivity. Qed.

(** ** Dictionaries *)

Lemma lookup_dict_set k k' v d :
  lookup k (dict_set k' v d) = if String.eqb k k' then Some v else lookup k d.
Proof.
  induction d as [|[k0 v0] d IH]; simpl.
  - reflexivity.
  - destruct (String.eqb_spec k' k0) as [->|Hne]; simpl.
    + destruct (String.eqb k k0); reflexivity.
    + rewrite IH. destruct (String.eqb_spec k k0) as [->|Hne'].
      * destruct (String.eqb_spec k0 k'); [congruence|reflexivity].
      * reflexivity.
Qed.

Lemma lookup_dict_display k items : forall d,
  lookup k (dict_display d items) =
  match lookup k (rev items) with Some v => Some v | None => lookup k d end.
Proof.
  unfold dict_display.
  induction items as [|[k0 v0] items IH]; intros d; simpl.
  - reflexivity.
  - rewrite IH. simpl. rewrite lookup_dict_set.
    clear IH. induction (rev items) as [|[k1 v1] r IHr]; simpl.
    + destruct (String.eqb k k0); reflexivity.
    + destruct (String.eqb k k1); [reflexivity|exact IHr].
Qed.

(** ** Maps keyed by identity key *)

Arguments compute_assistant_hash : simpl never.

Lemma hkey_eqb_spec a b : reflect (a = b) (hkey_eqb a b).
Proof.
  destruct a as [|x|x], b as [|y|y]; simpl; try (constructor; congruence).
  - destruct (Z.eqb_spec x y); constructor; congruence.
  - destruct (String.eqb_spec x y); constructor; congruence.
Qed.

Lemma kmap_get_none k m : kmap_get k m = None <-> ~ In k (map fst m).
Proof.
  induction m as [|[k' a] m IH]; simpl.
  - tauto.
  - destruct (hkey_eqb_spec k k') as [->|Hne].
    + split; [discriminate|]. intros H. exfalso. apply H. auto.
    + rewrite IH. split.
      * intros H [E|Hin]; [congruence|contradiction].
      * intros H Hin. apply H. auto.
Qed.

Lemma kmap_mem_in k m : kmap_mem k m = true <-> In k (map fst m).
Proof.
  unfold kmap_mem. destruct (kmap_get k m) eqn:H.
  - split; [|reflexivity]. intros _.
    destruct (in_dec (fun x y => match hkey_eqb_spec x y with
                                 | ReflectT _ e => left e
                                 | ReflectF _ n => right n
                                 end) k (map fst m)) as [Hin|Hn]; [exact Hin|].
    apply kmap_get_none in Hn. congruence.
  - split; [discriminate|]. intros Hin. apply kmap_get_none in H. contradiction.
Qed.

Lemma kmap_get_in k m a : kmap_get k m = Some a -> In (k, a) m.
Proof.
  induction m as [|[k' a'] m IH]; simpl; [discriminate|].
  destruct (hkey_eqb_spec k k') as [->|Hne].
  - intros H. injection H as <-. auto.
  - auto.
Qed.

Lemma kmap_get_unique k m a :
  NoDup (map fst m) -> In (k, a) m -> kmap_get k m = Some a.
Proof.
  induction m as [|[k' a'] m IH]; simpl; [contradiction|].
  intros Hnd Hin. inversion Hnd as [|? ? Hnotin Hnd']; subst.
  destruct Hin as [E|Hin].
  - injection E as -> ->. destruct (hkey_eqb_spec k k); congruence.
  - destruct (hkey_eqb_spec k k') as [->|Hne].
    + exfalso. apply Hnotin. apply (in_map fst) in Hin. exact Hin.
    + auto.
Qed.

Lemma kmap_set_keys k a m :
  map fst (kmap_set k a m) =
  if kmap_mem k m then map fst m else map fst m ++ [k].
Proof.
  unfold kmap_mem. induction m as [|[k' a'] m IH]; simpl; [reflexivity|].
  destruct (hkey_eqb_spec k k') as [->|Hne]; simpl; [reflexivity|].
  rewrite IH. destruct (kmap_get k m); reflexivity.
Qed.

Lemma kmap_set_in k a m k' a' :
  In (k', a') (kmap_set k a m) -> (k', a') = (k, a) \/ In (k', a') m.
Proof.
  induction m as [|[k0 a0] m IH]; simpl.
  - intros [H|[]]; auto.
  - destruct (hkey_eqb_spec k k0) as [->|Hne]; simpl.
    + intros [H|H]; auto.
    + intros [H|H]; auto. destruct (IH H); auto.
Qed.

Lemma kmap_ok_nil : kmap_ok [].
Proof. split; [constructor|intros k a []]. Qed.

Lemma kmap_ok_set k a m :
  kmap_ok m -> record_key a = Some k -> kmap_ok (kmap_set k a m).
Proof.
  intros [Hnd Hk] Ha. split.
  - rewrite kmap_set_keys. destruct (kmap_mem k m) eqn:Hm; [exact Hnd|].
    apply NoDup_app; [exact Hnd|repeat constructor; intros []|].
    intros x Hx [<-|[]]. apply kmap_mem_in in Hx. congruence.
  - intros k' a' Hin. apply kmap_set_in in Hin. destruct Hin as [E|Hin].
    + injection E as -> ->. exact Ha.
    + eauto.
Qed.

(** ** The loops of the diff *)

Lemma yaml_map_loop_step a l m :
  yaml_map_loop (a :: l) m =
  match record_key a with
  | Some k => yaml_map_loop l (kmap_set k a m)
  | None => if truthy (identity_key a) then Raise TypeError else yaml_map_loop l m
  end.
Proof.
  simpl. unfold record_key. destruct (truthy (identity_key a)); [|reflexivity].
  destruct (identity_key a); simpl; reflexivity.
Qed.

Lemma current_map_loop_filter l : forall m,
  current_map_loop l m = yaml_map_loop (filter is_live l) m.
Proof.
  induction l as [|a l IH]; intros m; simpl; [reflexivity|].
  destruct (is_live a); simpl; [|apply IH].
  destruct (truthy (identity_key a)); [|apply IH].
  destruct (hash_key (identity_key a)); simpl; [apply IH|reflexivity].
Qed.

Lemma yaml_map_loop_inv l : forall m m',
  yaml_map_loop l m = Ok m' -> kmap_ok m ->
  kmap_ok m' /\
  (forall k, In k (map fst m') <-> In k (map fst m) \/ In k (keys_of l)) /\
  (forall k a, In (k, a) m' -> In (k, a) m \/ In a l).
Proof.
  induction l as [|a l IH]; intros m m' H Hok.
  - simpl in H. injection H as <-. simpl. split; [exact Hok|].
    split; [intros k; tauto|auto].
  - rewrite yaml_map_loop_step in H. simpl.
    destruct (record_key a) as [k0|] eqn:Hk.
    + destruct (IH _ _ H (kmap_ok_set _ _ _ Hok Hk)) as (Hok' & Hkeys & Hsrc).
      split; [exact Hok'|]. split.
      * intros k. rewrite Hkeys, kmap_set_keys. simpl.
        destruct (kmap_mem k0 m) eqn:Hm.
        -- apply kmap_mem_in in Hm. split; [tauto|].
           intros [H1|[<-|H1]]; auto.
        -- rewrite in_app_iff. simpl. tauto.
      * intros k a' Hin. destruct (Hsrc _ _ Hin) as [Hin'|Hin']; [|auto].
        apply kmap_set_in in Hin'. destruct Hin' as [E|Hin']; [|auto].
        injection E as -> ->. auto.
    + destruct (truthy (identity_key a)); [discriminate|].
      destruct (IH _ _ H Hok) as (Hok' & Hkeys & Hsrc).
      split; [exact Hok'|]. split; [exact Hkeys|].
      intros k a' Hin. destruct (Hsrc _ _ Hin); auto.
Qed.

Lemma fold_classify cm ym : forall n u c,
  fold_left (classify_step cm) ym (n, u, c) =
  (n ++ new_of cm ym, u ++ updated_of cm ym, c ++ unchanged_of cm ym).
Proof.
  induction ym as [|[k a] ym IH]; intros n u c; simpl.
  - rewrite !app_nil_r. reflexivity.
  - unfold new_of, updated_of, unchanged_of in *. simpl.
    destruct (kmap_get k cm) as [cur|]; simpl.
    + destruct (negb _); rewrite IH; simpl; rewrite <- ?app_assoc; reflexivity.
    + rewrite IH. rewrite <- app_assoc. reflexivity.
Qed.

Lemma fold_deleted ym cm : forall d,
  fold_left (deleted_step ym) cm d = d ++ deleted_of ym cm.
Proof.
  induction cm as [|[k a] cm IH]; intros d; simpl.
  - rewrite app_nil_r. reflexivity.
  - unfold deleted_of in *. simpl. destruct (negb _); rewrite IH; simpl.
    + rewrite <- app_assoc. reflexivity.
    + reflexivity.
Qed.

Lemma detect_changes_eq D C :
  detect_changes D C =
  (yaml_map <-- yaml_map_loop D [] ;;
   current_map <-- yaml_map_loop (filter is_live C) [] ;;
   Ok (mk_changes (new_of current_map yaml_map) (updated_of current_map yaml_map)
                  (deleted_of yaml_map current_map)
                  (unchanged_of current_map yaml_map))).
Proof.
  unfold detect_changes. rewrite current_map_loop_filter.
  destruct (yaml_map_loop D []) as [ym|e]; simpl; [|reflexivity].
  destruct (yaml_map_loop (filter is_live C) []) as [cm|e]; simpl; [|reflexivity].
  rewrite fold_classify, fold_deleted. reflexivity.
Qed.

Lemma keys_of_app l1 l2 : keys_of (l1 ++ l2) = keys_of l1 ++ keys_of l2.
Proof. unfold keys_of. apply flat_map_app. Qed.

Lemma in_new_of cm ym a :
  In a (new_of cm ym) <-> exists k, In (k, a) ym /\ kmap_get k cm = None.
Proof.
  unfold new_of. rewrite in_flat_map. split.
  - intros ([k a'] & Hin & H). cbn [fst snd] in H.
    destruct (kmap_get k cm) eqn:Hg; [contradiction|].
    destruct H as [<-|[]]. eauto.
  - intros (k & Hin & Hg). exists (k, a). simpl. rewrite Hg. simpl. auto.
Qed.

Lemma in_updated_of cm ym u :
  In u (updated_of cm ym) <->
  exists k, In (k, new u) ym /\ kmap_get k cm = Some (old u) /\
            compute_assistant_hash (new u) <> compute_assistant_hash (old u).
Proof.
  unfold updated_of. rewrite in_flat_map. split.
  - intros ([k a'] & Hin & H). cbn [fst snd] in H.
    destruct (kmap_get k cm) as [cur|] eqn:Hg; [|contradiction].
    destruct (String.eqb_spec (compute_assistant_hash a') (compute_assistant_hash cur));
      cbn [negb] in H; [contradiction|].
    destruct H as [<-|[]]. simpl. eauto.
  - intros (k & Hin & Hg & Hne). exists (k, new u). cbn [fst snd]. rewrite Hg.
    destruct (String.eqb_spec (compute_assistant_hash (new u))
                              (compute_assistant_hash (old u))); [contradiction|].
    destruct u; split; [assumption|left; reflexivity].
Qed.

Lemma in_unchanged_of cm ym a :
  In a (unchanged_of cm ym) <->
  exists k cur, In (k, a) ym /\ kmap_get k cm = Some cur /\
                compute_assistant_hash a = compute_assistant_hash cur.
Proof.
  unfold unchanged_of. rewrite in_flat_map. split.
  - intros ([k a'] & Hin & H). cbn [fst snd] in H.
    destruct (kmap_get k cm) as [cur|] eqn:Hg; [|contradiction].
    destruct (String.eqb_spec (compute_assistant_hash a') (compute_assistant_hash cur));
      cbn [negb] in H; [|contradiction].
    destruct H as [<-|[]]. eauto.
  - intros (k & cur & Hin & Hg & He). exists (k, a). cbn [fst snd]. rewrite Hg.
    destruct (String.eqb_spec (compute_assistant_hash a) (compute_assistant_hash cur));
      [|contradiction].
    split; [assumption|left; reflexivity].
Qed.

Lemma in_deleted_of ym cm a :
  In a (deleted_of ym cm) <-> exists k, In (k, a) cm /\ kmap_mem k ym = false.
Proof.
  unfold deleted_of. rewrite in_flat_map. split.
  - intros ([k a'] & Hin & H). cbn [fst snd] in H.
    destruct (kmap_mem k ym) eqn:Hm; cbn [negb] in H; [contradiction|].
    destruct H as [<-|[]]. eauto.
  - intros (k & Hin & Hm). exists (k, a). simpl. rewrite Hm. simpl. auto.
Qed.

Lemma new_of_cons cm k a ym :
  new_of cm ((k, a) :: ym) =
  match kmap_get k cm with None => [a] | Some _ => [] end ++ new_of cm ym.
Proof. reflexivity. Qed.

Lemma updated_of_cons cm k a ym :
  updated_of cm ((k, a) :: ym) =
  match kmap_get k cm with
  | None => []
  | Some current =>
      if negb (String.eqb (compute_assistant_hash a) (compute_assistant_hash current))
      then [mk_update current a] else []
  end ++ updated_of cm ym.
Proof. reflexivity. Qed.

Lemma unchanged_of_cons cm k a ym :
  unchanged_of cm ((k, a) :: ym) =
  match kmap_get k cm with
  | None => []
  | Some current =>
      if negb (String.eqb (compute_assistant_hash a) (compute_assistant_hash current))
      then [] else [a]
  end ++ unchanged_of cm ym.
Proof. reflexivity. Qed.

Lemma deleted_of_cons ym k a cm :
  deleted_of ym ((k, a) :: cm) =
  (if negb (kmap_mem k ym) then [a] else []) ++ deleted_of ym cm.
Proof. reflexivity. Qed.

Lemma keys_of_one a k : record_key a = Some k -> keys_of [a] = [k].
Proof. intros H. unfold keys_of. cbn [flat_map]. rewrite H. reflexivity. Qed.

(** New, Updated and Unchanged share out the keys of [yaml_map]. *)
Lemma declared_keys_shared_out cm ym :
  (forall k a, In (k, a) ym -> record_key a = Some k) ->
  Permutation
    (keys_of (new_of cm ym) ++ keys_of (map new (updated_of cm ym)) ++
     keys_of (unchanged_of cm ym))
    (map fst ym).
Proof.
  induction ym as [|[k a] ym IH]; intros Hk.
  - constructor.
  - assert (Ha : keys_of [a] = [k]) by (apply keys_of_one, Hk; left; reflexivity).
    assert (IH' := IH (fun k' a' H => Hk k' a' (or_intror H))). clear IH.
    rewrite new_of_cons, updated_of_cons, unchanged_of_cons.
    rewrite map_app, !keys_of_app. cbn [map fst].
    destruct (kmap_get k cm) as [cur|].
    + destruct (negb _); cbn [map new].
      * rewrite Ha. change (keys_of []) with (@nil hkey). cbn [app].
        apply Permutation_sym, Permutation_cons_app, Permutation_sym. exact IH'.
      * rewrite Ha. change (keys_of []) with (@nil hkey). cbn [app].
        apply Permutation_sym. rewrite app_assoc.
        apply Permutation_cons_app. rewrite <- app_assoc.
        apply Permutation_sym. exact IH'.
    + rewrite Ha. change (keys_of []) with (@nil hkey). cbn [map app].
      apply perm_skip. exact IH'.
Qed.

Lemma deleted_keys ym cm :
  (forall k a, In (k, a) cm -> record_key a = Some k) ->
  keys_of (deleted_of ym cm) =
  filter (fun k => negb (kmap_mem k ym)) (map fst cm).
Proof.
  induction cm as [|[k a] cm IH]; intros Hk; [reflexivity|].
  assert (Ha : keys_of [a] = [k]) by (apply keys_of_one, Hk; left; reflexivity).
  rewrite deleted_of_cons, keys_of_app. cbn [map fst filter].
  rewrite IH by (intros; apply Hk; right; assumption).
  destruct (negb (kmap_mem k ym)).
  - rewrite Ha. reflexivity.
  - reflexivity.
Qed.

(** What a successful diff is made of. *)
Lemma detect_changes_inv D C r :
  detect_changes D C = Ok r ->
  exists ym cm,
    yaml_map_loop D [] = Ok ym /\
    yaml_map_loop (filter is_live C) [] = Ok cm /\
    kmap_ok ym /\ kmap_ok cm /\
    (forall k, In k (map fst ym) <-> In k (keys_of D)) /\
    (forall k, In k (map fst cm) <-> In k (keys_of (filter is_live C))) /\
    (forall k a, In (k, a) ym -> In a D) /\
    (forall k a, In (k, a) cm -> In a C /\ is_live a = true) /\
    r = mk_changes (new_of cm ym) (updated_of cm ym) (deleted_of ym cm)
                   (unchanged_of cm ym).
Proof.
  rewrite detect_changes_eq.
  destruct (yaml_map_loop D []) as [ym|e] eqn:Hy; simpl; [|discriminate].
  destruct (yaml_map_loop (filter is_live C) []) as [cm|e] eqn:Hc; simpl;
    [|discriminate].
  intros H. injection H as <-.
  destruct (yaml_map_loop_inv _ _ _ Hy kmap_ok_nil) as (Hoky & Hky & Hsy).
  destruct (yaml_map_loop_inv _ _ _ Hc kmap_ok_nil) as (Hokc & Hkc & Hsc).
  exists ym, cm.
  split; [reflexivity|]. split; [reflexivity|].
  split; [exact Hoky|]. split; [exact Hokc|].
  split.
  { intros k. rewrite Hky. simpl. tauto. }
  split.
  { intros k. rewrite Hkc. simpl. tauto. }
  split.
  { intros k a H. destruct (Hsy _ _ H) as [[]|H']; exact H'. }
  split; [|reflexivity].
  intros k a H. destruct (Hsc _ _ H) as [[]|H']. apply filter_In in H'. exact H'.
Qed.

(** ** The planner *)

Lemma plan_new_eq E l : forall ops w,
  plan_new E l ops w =
  (Ok (ops ++ new_ops E l (clock w)), mk_world (List.length l + clock w) (trace w)).
Proof.
  induction l as [|a l IH]; intros ops w; simpl.
  - rewrite app_nil_r. destruct w; reflexivity.
  - unfold bind, utcnow. rewrite IH. simpl.
    rewrite <- app_assoc. simpl. do 2 f_equal. lia.
Qed.

Lemma plan_deleted_eq E l : forall ops w,
  plan_deleted E l ops w =
  (Ok (ops ++ deleted_ops E l (clock w)), mk_world (List.length l + clock w) (trace w)).
Proof.
  induction l as [|a l IH]; intros ops w; simpl.
  - rewrite app_nil_r. destruct w; reflexivity.
  - unfold bind, utcnow. rewrite IH. simpl.
    rewrite <- app_assoc. simpl. do 2 f_equal. lia.
Qed.

Lemma plan_updated_ok E l : forall ops w o,
  updated_ops E l (clock w) = Ok o ->
  plan_updated E l ops w =
  (Ok (ops ++ o), mk_world (2 * List.length l + clock w) (trace w)).
Proof.
  induction l as [|u l IH]; intros ops w o H; simpl in *.
  - injection H as <-. rewrite app_nil_r. destruct w; reflexivity.
  - unfold bind, utcnow, lift. simpl.
    destruct (py_add_one _) as [ver|e]; simpl in H; [|discriminate].
    destruct (updated_ops E l (S (S (clock w)))) as [tl|e] eqn:Ht; simpl in H;
      [|discriminate].
    injection H as <-.
    rewrite (IH _ _ tl) by exact Ht. simpl.
    rewrite <- !app_assoc. simpl. do 2 f_equal. lia.
Qed.

Lemma plan_updated_inv E l : forall ops w ops' w',
  plan_updated E l ops w = (Ok ops', w') ->
  exists o, updated_ops E l (clock w) = Ok o /\ ops' = ops ++ o /\
            w' = mk_world (2 * List.length l + clock w) (trace w).
Proof.
  induction l as [|u l IH]; intros ops w ops' w' H; simpl in *.
  - exists []. unfold ret in H. injection H as <- <-.
    rewrite app_nil_r. destruct w; auto.
  - unfold bind, utcnow, lift in H. simpl in H.
    destruct (py_add_one _) as [ver|e]; simpl; [|discriminate].
    apply IH in H. destruct H as (o & Ho & -> & ->). simpl in Ho.
    rewrite Ho. simpl. eexists. split; [reflexivity|].
    rewrite <- !app_assoc. simpl. split; [reflexivity|]. f_equal. lia.
Qed.

Lemma plan_updated_trace E l : forall ops w r w',
  plan_updated E l ops w = (r, w') -> trace w' = trace w.
Proof.
  induction l as [|u l IH]; intros ops w r w' H; simpl in *.
  - unfold ret in H. injection H as <- <-. reflexivity.
  - unfold bind, utcnow, lift in H. simpl in H.
    destruct (py_add_one _) as [ver|e].
    + apply IH in H. exact H.
    + injection H as <- <-. reflexivity.
Qed.

Lemma plan_inv E c w ops w' :
  plan E c w = (Ok ops, w') ->
  exists o,
    updated_ops E (ch_updated c) (List.length (ch_new c) + clock w) = Ok o /\
    ops = new_ops E (ch_new c) (clock w) ++ o ++
          deleted_ops E (ch_deleted c)
            (2 * List.length (ch_updated c) + (List.length (ch_new c) + clock w)) /\
    trace w' = trace w /\
    clock w' = List.length (ch_deleted c) +
               (2 * List.length (ch_updated c) + (List.length (ch_new c) + clock w)).
Proof.
  unfold plan, bind. rewrite plan_new_eq. simpl.
  destruct (plan_updated E (ch_updated c) _ _) as [[ops2|e] w2] eqn:Hu;
    [|discriminate].
  apply plan_updated_inv in Hu. destruct Hu as (o & Ho & -> & ->).
  simpl in *. rewrite plan_deleted_eq. simpl. intros H. injection H as <- <-.
  exists o. simpl. rewrite <- app_assoc. auto.
Qed.

Lemma plan_ok E c w o :
  updated_ops E (ch_updated c) (List.length (ch_new c) + clock w) = Ok o ->
  plan E c w =
  (Ok (new_ops E (ch_new c) (clock w) ++ o ++
       deleted_ops E (ch_deleted c)
         (2 * List.length (ch_updated c) + (List.length (ch_new c) + clock w))),
   mk_world (List.length (ch_deleted c) +
             (2 * List.length (ch_updated c) + (List.length (ch_new c) + clock w)))
            (trace w)).
Proof.
  intros Ho. unfold plan, bind. rewrite plan_new_eq. simpl.
  rewrite (plan_updated_ok _ _ _ _ o) by exact Ho. simpl.
  rewrite plan_deleted_eq. simpl. rewrite <- app_assoc. reflexivity.
Qed.

Lemma plan_trace E c w r w' : plan E c w = (r, w') -> trace w' = trace w.
Proof.
  unfold plan, bind. rewrite plan_new_eq. simpl.
  destruct (plan_updated E (ch_updated c) _ _) as [[ops2|e] w2] eqn:Hu.
  - apply plan_updated_trace in Hu. rewrite plan_deleted_eq.
    intros H. injection H as <- <-. exact Hu.
  - apply plan_updated_trace in Hu. intros H. injection H as <- <-. exact Hu.
Qed.


Lemma updated_ops_total E l : forall n,
  (forall u, In u l ->
     exists x, py_add_one (get_default "version" (VInt 0) (old u)) = Ok x) ->
  exists o, updated_ops E l n = Ok o.
Proof.
  induction l as [|u l IH]; intros n H; simpl.
  - eauto.
  - destruct (H u (or_introl eq_refl)) as [x ->]. simpl.
    destruct (IH (S (S n))) as [o ->]; [intros; apply H; right; assumption|].
    simpl. eauto.
Qed.

Lemma plan_total E c w :
  addable_versions c -> exists ops w', plan E c w = (Ok ops, w').
Proof.
  intros H.
  destruct (updated_ops_total E (ch_updated c) (List.length (ch_new c) + clock w) H)
    as [o Ho].
  rewrite (plan_ok _ _ _ _ Ho). eauto.
Qed.


Lemma successor_data_lookup E o n version m k :
  lookup k (successor_data E o n version m) =
  if String.eqb k "previousVersion" then Some (get "id" o)
  else if String.eqb k "version" then Some version
  else if String.eqb k "dateAdded" then Some (VStr (utcnow_isoformat E m))
  else if String.eqb k "isActive" then Some (VBool true)
  else lookup k n.
Proof.
  unfold successor_data. rewrite lookup_dict_display. simpl.
  repeat match goal with |- context [String.eqb k ?s] => destruct (String.eqb k s) end;
    reflexivity.
Qed.






(** ** The executor *)

Lemma submit_failure E self ops w :
  ops <> [] ->
  session_post E (sync_url self) (sync_payload E ops (clock w))
  = Raise RequestException ->
  submit E self ops w =
  (Ok false,
   mk_world (S (clock w))
     (trace w ++ [EvPost (sync_url self) (sync_payload E ops (clock w));
                  EvWrite failed_sync_file (sync_payload E ops (clock w))])).
Proof.
  intros Hne Hpost. destruct ops as [|op ops]; [congruence|].
  unfold submit, bind, utcnow, try_except, emit, lift, ret. simpl.
  fold (sync_url self). fold (sync_payload E (op :: ops) (clock w)).
  rewrite Hpost. simpl. rewrite <- app_assoc. reflexivity.
Qed.

(** C7: when New, Updated and Deleted are all empty the plan is empty
    and the executor returns True at once: the world is untouched, so no
    request was issued and no file written.  A submission that fails
    returns False, which tells it apart from this outcome. *)
Theorem empty_diff_is_noop E self c w :
  ch_new c = [] -> ch_updated c = [] -> ch_deleted c = [] ->
  plan E c w = (Ok [], w) /\
  sync_to_cloudflare E self c w = (Ok true, w) /\
  forall ops w1,
    ops <> [] ->
    session_post E (sync_url self) (sync_payload E ops (clock w1))
    = Raise RequestException ->
    fst (submit E self ops w1) = Ok false /\
    fst (submit E self ops w1) <> fst (sync_to_cloudflare E self c w).
Proof.
  intros Hn Hu Hd.
  assert (Hp : plan E c w = (Ok [], w)).
  { unfold plan, bind. rewrite Hn, Hu, Hd. simpl. destruct w; reflexivity. }
  assert (Hs : sync_to_cloudflare E self c w = (Ok true, w)).
  { unfold sync_to_cloudflare, bind. rewrite Hp. reflexivity. }
  repeat split; try assumption.
  - rewrite submit_failure by assumption. reflexivity.
  - rewrite submit_failure by assumption. rewrite Hs. simpl. discriminate.
Qed.

Lemma empty_diff_is_noop_witness :
  sync_to_cloudflare quiet_env (mk_manager "https://worker.example")
    (mk_changes [] [] [] [declared_a]) initial_world
  = (Ok true, initial_world).
Proof.
  apply (empty_diff_is_noop quiet_env (mk_manager "https://worker.example")
           (mk_changes [] [] [] [declared_a]) initial_world);
    reflexivity.
Defined.

(** C8: when the submission of a non-empty operation sequence raises a
    request exception (transport failure or error status), the executor
    has posted the payload [{operations, source, timestamp}] to the write
    endpoint, then written that same payload to
    [failed_sync_operations.json], and returns False; so does
    [sync_to_cloudflare] on the operations it planned. *)
Theorem failed_submission_spills_payload E self ops w :
  ops <> [] ->
  session_post E (sync_url self) (sync_payload E ops (clock w))
  = Raise RequestException ->
  let payload :=
    VDict [("operations", VList ops);
           ("source", VStr "awesome-assistants-sync");
           ("timestamp", VStr (utcnow_isoformat E (clock w)))] in
  submit E self ops w =
  (Ok false,
   mk_world (S (clock w))
     (trace w ++ [EvPost (cloudflare_endpoint self ++ "/sync")%string payload;
                  EvWrite "failed_sync_operations.json" payload])) /\
  forall c w0,
    plan E c w0 = (Ok ops, w) ->
    sync_to_cloudflare E self c w0 =
    (Ok false,
     mk_world (S (clock w))
       (trace w0 ++ [EvPost (cloudflare_endpoint self ++ "/sync")%string payload;
                     EvWrite "failed_sync_operations.json" payload])).
Proof.
  intros Hne Hpost payload. split.
  - apply submit_failure; assumption.
  - intros c w0 Hp. unfold sync_to_cloudflare, bind. rewrite Hp.
    rewrite submit_failure by assumption.
    rewrite (plan_trace _ _ _ _ _ Hp). reflexivity.
Qed.

Lemma failed_submission_spills_payload_witness :
  fst (sync_to_cloudflare quiet_env (mk_manager "https://worker.example")
         versioned_update initial_world) = Ok false.
Proof.
  pose (ops := new_ops quiet_env [] 0 ++
               [deactivate_op quiet_env persisted_a 0;
                insert_op (successor_data quiet_env persisted_a declared_a (VInt 2) 1)]).
  assert (Hne : ops <> []) by discriminate.
  destruct (failed_submission_spills_payload quiet_env
              (mk_manager "https://worker.example") ops (mk_world 2 [])
              Hne eq_refl) as [_ H].
  rewrite (H versioned_update initial_world eq_refl). reflexivity.
Defined.

(** C10: the fingerprint depends on which tracked keys are present.
    [null_author] and [no_author] read the same under [get] for each of
    the six tracked fields, yet their fingerprints differ, and the diff of
    one against the other is an Updated pair, not Unchanged. *)
Theorem fingerprint_depends_on_presence :
  (forall k, In k key_fields -> get k null_author = get k no_author) /\
  lookup "author" null_author = Some VNull /\
  lookup "author" no_author = None /\
  compute_assistant_hash null_author <> compute_assistant_hash no_author /\
  detect_changes [null_author] [no_author]
  = Ok (mk_changes [] [mk_update no_author null_author] [] []).
Proof.
  split.
  { intros k Hk. simpl in Hk.
    repeat (destruct Hk as [<-|Hk]; [reflexivity|]). contradiction. }
  repeat split.
  vm_compute. discriminate.
Qed.

(** ** Exit status *)






(** ** The diff *)

Lemma filter_twice {A : Type} (f : A -> bool) l : filter f (filter f l) = filter f l.
Proof.
  induction l as [|x l IH]; simpl; [reflexivity|].
  destruct (f x) eqn:Hx; simpl; rewrite ?Hx, IH; reflexivity.
Qed.

Lemma detect_changes_live D C :
  detect_changes D (filter is_live C) = detect_changes D C.
Proof. rewrite !detect_changes_eq, filter_twice. reflexivity. Qed.

Lemma class_members_keyed ym cm :
  kmap_ok ym -> kmap_ok cm ->
  forall a,
    In a (new_of cm ym ++ map new (updated_of cm ym) ++ deleted_of ym cm ++
          unchanged_of cm ym) ->
    record_key a <> None.
Proof.
  intros [_ Hky] [_ Hkc] a Hin.
  rewrite !in_app_iff, in_map_iff in Hin.
  destruct Hin as [H|[(u & <- & H)|[H|H]]].
  - apply in_new_of in H. destruct H as (k & H & _). rewrite (Hky _ _ H). discriminate.
  - apply in_updated_of in H. destruct H as (k & H & _). rewrite (Hky _ _ H). discriminate.
  - apply in_deleted_of in H. destruct H as (k & H & _). rewrite (Hkc _ _ H). discriminate.
  - apply in_unchanged_of in H. destruct H as (k & cur & H & _).
    rewrite (Hky _ _ H). discriminate.
Qed.

(** C1: a diff that returns files every identity key of the declared
    records and of the live current records under exactly one of New,
    Updated, Deleted, Unchanged: the keys of the four classes taken
    together have no repetition, they are the declared keys and the live
    keys, and every class member has a key.  Deleted records and the old
    halves of Updated pairs are live records of the current collection;
    the diff is the diff against the live records alone, so a record that
    is not live takes no part.  For a record whose isActive is absent or a
    boolean, live means isActive is not false and dateDeleted reads as
    unset. *)
Theorem diff_partitions_keys D C r :
  detect_changes D C = Ok r ->
  let kn := keys_of (ch_new r) in
  let ku := keys_of (map new (ch_updated r)) in
  let kd := keys_of (ch_deleted r) in
  let kc := keys_of (ch_unchanged r) in
  NoDup (kn ++ ku ++ kd ++ kc) /\
  (forall k, In k (kn ++ ku ++ kd ++ kc) <->
             In k (keys_of D) \/ In k (keys_of (filter is_live C))) /\
  (forall a, In a (ch_new r ++ map new (ch_updated r) ++ ch_deleted r ++
                   ch_unchanged r) -> record_key a <> None) /\
  (forall u, In u (ch_updated r) -> record_key (old u) = record_key (new u)) /\
  (forall a, In a (ch_deleted r) -> In a C /\ is_live a = true) /\
  (forall u, In u (ch_updated r) -> In (old u) C /\ is_live (old u) = true) /\
  detect_changes D (filter is_live C) = Ok r /\
  (forall c,
     lookup "isActive" c = None \/ (exists b, lookup "isActive" c = Some (VBool b)) ->
     (is_live c = true <->
      lookup "isActive" c <> Some (VBool false) /\
      truthy (get "dateDeleted" c) = false)).
Proof.
  intros H kn ku kd kc.
  assert (Hlive := detect_changes_live D C). rewrite H in Hlive.
  destruct (detect_changes_inv _ _ _ H)
    as (ym & cm & _ & _ & Hoky & Hokc & Hkeysy & Hkeysc & _ & Hsrcc & ->).
  destruct Hoky as [Hndy Hky]. destruct Hokc as [Hndc Hkc].
  subst kn ku kd kc. cbn [ch_new ch_updated ch_deleted ch_unchanged].
  pose proof (declared_keys_shared_out cm ym Hky) as Hperm.
  pose proof (deleted_keys ym cm Hkc) as Hdel.
  set (kn := keys_of (new_of cm ym)) in *.
  set (ku := keys_of (map new (updated_of cm ym))) in *.
  set (kc := keys_of (unchanged_of cm ym)) in *.
  set (kd := keys_of (deleted_of ym cm)) in *.
  assert (Hre : Permutation (kn ++ ku ++ kd ++ kc) ((kn ++ ku ++ kc) ++ kd)).
  { rewrite <- !app_assoc. do 2 apply Permutation_app_head.
    apply Permutation_app_comm. }
  assert (Hin : forall k, In k (kn ++ ku ++ kd ++ kc) <->
                          In k (map fst ym) \/ In k kd).
  { intros k. split.
    - intros Hk. apply (Permutation_in _ Hre) in Hk. apply in_app_iff in Hk.
      destruct Hk as [Hk|Hk]; [left|right; exact Hk].
      apply (Permutation_in _ Hperm). exact Hk.
    - intros Hk. apply (Permutation_in _ (Permutation_sym Hre)).
      apply in_app_iff. destruct Hk as [Hk|Hk]; [left|right; exact Hk].
      apply (Permutation_in _ (Permutation_sym Hperm)). exact Hk. }
  split.
  { apply (Permutation_NoDup (Permutation_sym Hre)).
    apply NoDup_app.
    - apply (Permutation_NoDup (Permutation_sym Hperm)). exact Hndy.
    - rewrite Hdel. apply NoDup_filter. exact Hndc.
    - intros k Hk Hk'. apply (Permutation_in _ Hperm) in Hk.
      rewrite Hdel in Hk'. apply filter_In in Hk'. destruct Hk' as [_ Hk'].
      apply kmap_mem_in in Hk. rewrite Hk in Hk'. discriminate. }
  split.
  { intros k. rewrite Hin, Hdel, filter_In, <- Hkeysy, <- Hkeysc. split.
    - tauto.
    - intros [Hk|Hk]; [auto|].
      destruct (kmap_mem k ym) eqn:Hm.
      + left. apply kmap_mem_in. exact Hm.
      + right. auto. }
  split.
  { apply class_members_keyed; split; assumption. }
  split.
  { intros u Hu. apply in_updated_of in Hu. destruct Hu as (k & Hu & Hg & _).
    apply kmap_get_in in Hg. rewrite (Hky _ _ Hu), (Hkc _ _ Hg). reflexivity. }
  split.
  { intros a Ha. apply in_deleted_of in Ha. destruct Ha as (k & Ha & _). eauto. }
  split.
  { intros u Hu. apply in_updated_of in Hu. destruct Hu as (k & _ & Hg & _).
    apply kmap_get_in in Hg. eauto. }
  split; [exact Hlive|].
  intros c Hc. unfold is_live, get_default.
  destruct Hc as [->|[b ->]].
  - simpl. destruct (truthy (get "dateDeleted" c)); split;
      try discriminate; try (intros [_ ?]; discriminate); auto.
    split; [discriminate|reflexivity].
  - destruct b; simpl.
    + destruct (truthy (get "dateDeleted" c)); split;
        try discriminate; try (intros [_ ?]; discriminate); auto.
      split; [discriminate|reflexivity].
    + split; [discriminate|]. intros [Hf _]. congruence.
Qed.

Lemma diff_partitions_keys_witness :
  detect_changes [declared_a] [persisted_a] = Ok versioned_update /\
  NoDup (keys_of (ch_new versioned_update) ++
         keys_of (map new (ch_updated versioned_update)) ++
         keys_of (ch_deleted versioned_update) ++
         keys_of (ch_unchanged versioned_update)).
Proof.
  assert (H : detect_changes [declared_a] [persisted_a] = Ok versioned_update)
    by (vm_compute; reflexivity).
  split; [exact H|].
  exact (proj1 (diff_partitions_keys [declared_a] [persisted_a] versioned_update H)).
Defined.

(** ** Totality and records without identity *)







(** ** The encoder is injective *)

Lemma unescape_escape c t : unescape_char (escape_char c ++ t) = Some (c, t).
Proof. destruct c as [[] [] [] [] [] [] [] []]; reflexivity. Qed.

Lemma escaped_inj l1 : forall l2 r1 r2,
  flat_map escape_char l1 ++ dquote :: r1 = flat_map escape_char l2 ++ dquote :: r2 ->
  l1 = l2 /\ r1 = r2.
Proof.
  induction l1 as [|c1 l1 IH]; intros [|c2 l2] r1 r2 H; cbn [flat_map] in H.
  - injection H as <-. auto.
  - apply (f_equal unescape_char) in H. rewrite <- app_assoc, unescape_escape in H.
    discriminate.
  - apply (f_equal unescape_char) in H. rewrite <- app_assoc, unescape_escape in H.
    discriminate.
  - apply (f_equal unescape_char) in H.
    rewrite <- !app_assoc, !unescape_escape in H. injection H as <- H.
    destruct (IH _ _ _ H) as [<- <-]. auto.
Qed.

Lemma list_ascii_of_string_inj s1 s2 :
  list_ascii_of_string s1 = list_ascii_of_string s2 -> s1 = s2.
Proof.
  intros H. apply (f_equal string_of_list_ascii) in H.
  rewrite !string_of_list_ascii_of_string in H. exact H.
Qed.

Lemma encode_string_inj s1 s2 r1 r2 :
  encode_string s1 ++ r1 = encode_string s2 ++ r2 -> s1 = s2 /\ r1 = r2.
Proof.
  unfold encode_string. cbn [app]. rewrite <- !app_assoc. cbn [app].
  intros H. injection H as H. apply escaped_inj in H. destruct H as [H <-].
  apply list_ascii_of_string_inj in H. auto.
Qed.

Lemma uint_chars d :
  Forall (fun c => is_num_char c = true)
         (list_ascii_of_string (NilEmpty.string_of_uint d)).
Proof. induction d; simpl; constructor; auto. Qed.

Lemma encode_int_chars z : Forall (fun c => is_num_char c = true) (encode_int z).
Proof.
  unfold encode_int. destruct (Z.to_int z) as [d|d]; simpl.
  - apply uint_chars.
  - constructor; [reflexivity|apply uint_chars].
Qed.

Lemma uint_nonempty p : NilEmpty.string_of_uint (Pos.to_uint p) <> EmptyString.
Proof.
  pose proof (DecimalPos.Unsigned.to_uint_nonnil p) as H.
  destruct (Pos.to_uint p); simpl; congruence.
Qed.

Lemma encode_int_head z :
  exists c t, encode_int z = c :: t /\ is_num_char c = true.
Proof.
  pose proof (encode_int_chars z) as Hall.
  destruct (encode_int z) as [|c t] eqn:He.
  - exfalso. unfold encode_int in He. destruct z as [|p|p]; simpl in He.
    + discriminate.
    + pose proof (uint_nonempty p) as Hn.
      destruct (NilEmpty.string_of_uint (Pos.to_uint p)); [congruence|discriminate].
    + discriminate.
  - inversion Hall; subst. eauto.
Qed.

Lemma encode_int_inj z1 z2 : encode_int z1 = encode_int z2 -> z1 = z2.
Proof.
  unfold encode_int. intros H. apply list_ascii_of_string_inj in H.
  apply (f_equal NilEmpty.int_of_string) in H. rewrite !NilEmpty.isi in H.
  injection H as H. apply DecimalZ.to_int_inj in H. exact H.
Qed.

(** Two runs of literal characters that end where the text is delimited
    end at the same place. *)
Lemma num_run_inj l1 : forall l2 r1 r2,
  Forall (fun c => is_num_char c = true) l1 ->
  Forall (fun c => is_num_char c = true) l2 ->
  delimited r1 -> delimited r2 ->
  l1 ++ r1 = l2 ++ r2 -> l1 = l2 /\ r1 = r2.
Proof.
  induction l1 as [|c1 l1 IH]; intros [|c2 l2] r1 r2 H1 H2 D1 D2 H; simpl in H.
  - auto.
  - subst r1. inversion H2; subst. simpl in D1. congruence.
  - subst r2. inversion H1; subst. simpl in D2. congruence.
  - injection H as <- H.
    destruct (IH _ _ _ (Forall_inv_tail H1) (Forall_inv_tail H2) D1 D2 H)
      as [<- <-].
    auto.
Qed.

Lemma encode_head v : exists c t, encode v = c :: t /\ value_start c = true.
Proof.
  destruct v as [|[]|z|s|l|d]; try (do 2 eexists; split; reflexivity).
  destruct (encode_int_head z) as (c & t & He & Hc).
  exists c, t. split; [exact He|].
  unfold value_start. rewrite Hc. apply orb_true_r.
Qed.

Lemma join_cons sep c rest :
  join sep (c :: rest) =
  c ++ match rest with [] => [] | _ :: _ => sep ++ join sep rest end.
Proof. destruct rest; simpl; rewrite ?app_nil_r; reflexivity. Qed.

(** A joined sequence followed by its closing bracket determines its
    members, when each member is determined by a delimited text and none
    starts with the closing bracket. *)
Lemma join_inj {A : Type} (f : A -> list ascii) (closer : ascii) :
  is_num_char closer = false -> closer <> ","%char ->
  (forall y, exists h t, f y = h :: t /\ h <> closer) ->
  forall l1,
    (forall x, In x l1 -> forall y r1 r2,
        delimited r1 -> delimited r2 -> f x ++ r1 = f y ++ r2 -> x = y /\ r1 = r2) ->
    forall l2 r1 r2,
      join (str ", ") (map f l1) ++ closer :: r1 =
      join (str ", ") (map f l2) ++ closer :: r2 ->
      l1 = l2 /\ r1 = r2.
Proof.
  intros Hnum Hcomma Hhead.
  induction l1 as [|x l1 IH]; intros Hel [|y l2] r1 r2 H.
  - simpl in H. injection H as <-. auto.
  - exfalso. cbn [map] in H. rewrite join_cons in H.
    destruct (Hhead y) as (h & t & Hy & Hne). rewrite Hy in H.
    simpl in H. injection H as H _. congruence.
  - exfalso. cbn [map] in H. rewrite join_cons in H.
    destruct (Hhead x) as (h & t & Hx & Hne). rewrite Hx in H.
    simpl in H. injection H as H _. congruence.
  - cbn [map] in H. rewrite !join_cons, <- !app_assoc in H.
    apply (Hel x (or_introl eq_refl)) in H.
    + destruct H as [<- H]. destruct l1 as [|x' l1], l2 as [|y' l2].
      * simpl in H. injection H as <-. auto.
      * exfalso.
        change (closer :: r1 =
                ","%char :: (" "%char :: join (str ", ") (map f (y' :: l2)))
                            ++ closer :: r2) in H.
        injection H as H _. congruence.
      * exfalso.
        change (","%char :: (" "%char :: join (str ", ") (map f (x' :: l1)))
                            ++ closer :: r1 = closer :: r2) in H.
        injection H as H _. congruence.
      * change (str ", " ++ (join (str ", ") (map f (x' :: l1)) ++ closer :: r1) =
                str ", " ++ (join (str ", ") (map f (y' :: l2)) ++ closer :: r2))
          in H.
        apply app_inv_head in H. apply IH in H.
        -- destruct H as [H <-]. rewrite H. auto.
        -- intros z Hz. apply Hel. right. exact Hz.
    + destruct (map f l1); simpl; [exact Hnum|reflexivity].
    + destruct (map f l2); simpl; [exact Hnum|reflexivity].
Qed.

(** The text of a value, followed by a delimited rest, determines the
    value and the rest. *)
Lemma encode_inj_rest v1 : forall v2 r1 r2,
  delimited r1 -> delimited r2 ->
  encode v1 ++ r1 = encode v2 ++ r2 -> v1 = v2 /\ r1 = r2.
Proof.
  induction v1 as [|b1|z1|s1|l1 IH|d1 IH] using value_ind';
    intros v2 r1 r2 D1 D2 H.
  - destruct v2 as [|[]|z2|s2|l2|d2]; try discriminate H.
    + injection H as <-. auto.
    + exfalso. destruct (encode_int_head z2) as (c & t & He & Hc).
      simpl in H. rewrite He in H. injection H as <- _. discriminate Hc.
  - destruct v2 as [|b2|z2|s2|l2|d2]; try (destruct b1; discriminate H).
    + destruct b1, b2; try discriminate H; injection H as <-; auto.
    + exfalso. destruct (encode_int_head z2) as (c & t & He & Hc).
      destruct b1; simpl in H; rewrite He in H; injection H as <- _;
        discriminate Hc.
  - destruct (encode_int_head z1) as (c & t & He & Hc).
    destruct v2 as [|[]|z2|s2|l2|d2];
      try (exfalso; simpl in H; rewrite He in H; injection H as -> _;
           discriminate Hc).
    cbn [encode] in H.
    apply num_run_inj in H; auto using encode_int_chars.
    destruct H as [H <-]. apply encode_int_inj in H. subst. auto.
  - destruct v2 as [|[]|z2|s2|l2|d2]; try discriminate H.
    + exfalso. destruct (encode_int_head z2) as (c & t & He & Hc).
      simpl in H. rewrite He in H. injection H as <- _. discriminate Hc.
    + cbn [encode] in H. apply encode_string_inj in H.
      destruct H as [<- <-]. auto.
  - destruct v2 as [|[]|z2|s2|l2|d2]; try discriminate H.
    + exfalso. destruct (encode_int_head z2) as (c & t & He & Hc).
      simpl in H. rewrite He in H. injection H as <- _. discriminate Hc.
    + cbn [encode str list_ascii_of_string app] in H. injection H as H.
      rewrite <- !app_assoc in H. cbn [app] in H.
      apply (join_inj encode "]"%char) in H.
      * destruct H as [<- <-]. auto.
      * reflexivity.
      * discriminate.
      * intros y. destruct (encode_head y) as (h & t & Hy & Hs).
        exists h, t. split; [exact Hy|]. intros ->. discriminate Hs.
      * intros x Hx y q1 q2 Q1 Q2 Hq. exact (IH x Hx y q1 q2 Q1 Q2 Hq).
  - destruct v2 as [|[]|z2|s2|l2|d2]; try discriminate H.
    + exfalso. destruct (encode_int_head z2) as (c & t & He & Hc).
      simpl in H. rewrite He in H. injection H as <- _. discriminate Hc.
    + cbn [encode str list_ascii_of_string app] in H. injection H as H.
      rewrite <- !app_assoc in H. cbn [app] in H.
      apply (join_inj (fun kv => encode_string (fst kv) ++
                                 ":"%char :: " "%char :: encode (snd kv))
                      "}"%char) in H.
      * destruct H as [<- <-]. auto.
      * reflexivity.
      * discriminate.
      * intros y. do 2 eexists. split; [reflexivity|]. discriminate.
      * intros [k x] Hx [k' y] q1 q2 Q1 Q2 Hq. cbn [fst snd] in Hq.
        rewrite <- !app_assoc in Hq. apply encode_string_inj in Hq.
        destruct Hq as [<- Hq]. cbn [app] in Hq. injection Hq as Hq.
        destruct (IH (k, x) Hx y q1 q2 Q1 Q2 Hq) as [<- <-]. auto.
Qed.

Lemma encode_inj v1 v2 : encode v1 = encode v2 -> v1 = v2.
Proof.
  intros H.
  destruct (encode_inj_rest v1 v2 [] [] I I) as [Hv _]; [|exact Hv].
  rewrite !app_nil_r. exact H.
Qed.

Lemma json_dumps_sorted_inj v1 v2 :
  json_dumps_sorted v1 = json_dumps_sorted v2 <-> same_value v1 v2.
Proof.
  unfold json_dumps_sorted, same_value. split.
  - intros H. apply (f_equal list_ascii_of_string) in H.
    rewrite !list_ascii_of_string_of_list_ascii in H. apply encode_inj. exact H.
  - intros ->. reflexivity.
Qed.

(** ** The fingerprint *)

Lemma ltb_irrefl s : String.ltb s s = false.
Proof.
  unfold String.ltb. pose proof (String.compare_antisym s s) as H.
  destruct (String.compare s s); simpl in H; try discriminate H; reflexivity.
Qed.

Lemma lookup_insert_item k kx vx l :
  lookup k (insert_item (kx, vx) l) =
  if String.eqb k kx then Some vx else lookup k l.
Proof.
  induction l as [|[ky vy] l IH]; simpl; [reflexivity|].
  destruct (String.ltb ky kx) eqn:Hlt; simpl; [|reflexivity].
  rewrite IH. destruct (String.eqb_spec k ky) as [->|Hne]; [|reflexivity].
  destruct (String.eqb_spec ky kx) as [->|Hne']; [|reflexivity].
  rewrite ltb_irrefl in Hlt. discriminate.
Qed.

Lemma lookup_sort_items k l : lookup k (sort_items l) = lookup k l.
Proof.
  induction l as [|[kx vx] l IH]; simpl; [reflexivity|].
  rewrite lookup_insert_item, IH. reflexivity.
Qed.

(** The items of the normalized mapping as the encoder meets them. *)
Lemma lookup_normalized_absent r k : forall ks,
  lookup k r = None ->
  lookup k (map (fun kv => (fst kv, sort_keys (snd kv)))
              (flat_map (fun k' => if contains k' r then [(k', get k' r)] else [])
                        ks)) = None.
Proof.
  induction ks as [|k' ks IH]; intros Hk; simpl; [reflexivity|].
  unfold contains. destruct (lookup k' r) as [v|] eqn:Hl; simpl.
  - destruct (String.eqb_spec k k') as [->|Hne]; [congruence|apply IH; exact Hk].
  - apply IH; exact Hk.
Qed.

Lemma lookup_normalized_tracked r k : forall ks,
  In k ks ->
  lookup k (map (fun kv => (fst kv, sort_keys (snd kv)))
              (flat_map (fun k' => if contains k' r then [(k', get k' r)] else [])
                        ks)) = option_map sort_keys (lookup k r).
Proof.
  induction ks as [|k' ks IH]; intros Hin; [contradiction|].
  destruct (lookup k r) as [v|] eqn:Hk.
  2:{ apply lookup_normalized_absent. exact Hk. }
  simpl. unfold contains. destruct (lookup k' r) as [v'|] eqn:Hl; simpl.
  - destruct (String.eqb_spec k k') as [->|Hne].
    + unfold get, get_default. rewrite Hl. congruence.
    + destruct Hin as [->|Hin]; [congruence|]. apply IH. exact Hin.
  - destruct Hin as [->|Hin]; [congruence|]. apply IH. exact Hin.
Qed.

Lemma normalized_ext r1 r2 : forall ks,
  (forall k, In k ks -> same_field k r1 r2) ->
  map (fun kv => (fst kv, sort_keys (snd kv)))
      (flat_map (fun k' => if contains k' r1 then [(k', get k' r1)] else []) ks) =
  map (fun kv => (fst kv, sort_keys (snd kv)))
      (flat_map (fun k' => if contains k' r2 then [(k', get k' r2)] else []) ks).
Proof.
  induction ks as [|k ks IH]; intros H; [reflexivity|].
  cbn [flat_map]. rewrite !map_app.
  rewrite IH by (intros; apply H; right; assumption).
  f_equal. specialize (H k (or_introl eq_refl)).
  unfold same_field, same_value, contains, get, get_default in *.
  destruct (lookup k r1), (lookup k r2); simpl; try contradiction; congruence.
Qed.

Lemma same_mapping_lookup d1 d2 k :
  same_value (VDict d1) (VDict d2) ->
  lookup k (map (fun kv => (fst kv, sort_keys (snd kv))) d1) =
  lookup k (map (fun kv => (fst kv, sort_keys (snd kv))) d2).
Proof.
  unfold same_value. cbn [sort_keys]. intros H. injection H as H.
  apply (f_equal (lookup k)) in H. rewrite !lookup_sort_items in H. exact H.
Qed.

Lemma fingerprint_same_fields r1 r2 :
  compute_assistant_hash r1 = compute_assistant_hash r2 <->
  forall k, In k key_fields -> same_field k r1 r2.
Proof.
  unfold compute_assistant_hash. rewrite json_dumps_sorted_inj. split.
  - intros H k Hk. apply (same_mapping_lookup _ _ k) in H.
    unfold normalized in H.
    rewrite !lookup_normalized_tracked in H by exact Hk.
    unfold same_field, same_value.
    destruct (lookup k r1), (lookup k r2); simpl in H; congruence || exact I.
  - intros H. unfold same_value, normalized. cbn [sort_keys].
    rewrite (normalized_ext r1 r2 key_fields H). reflexivity.
Qed.

Lemma same_field_of_lookup k r1 r2 :
  lookup k r1 = lookup k r2 -> same_field k r1 r2.
Proof.
  unfold same_field, same_value. intros ->.
  destruct (lookup k r2); [reflexivity|exact I].
Qed.





(** *** What being the same value means *)















(** ** The round trip through the remote store *)

Lemma value_eqb_eq a : forall b, value_eqb a b = true <-> a = b.
Proof.
  induction a as [|x|x|x|l1 IH|d1 IH] using value_ind'; intros b;
    destruct b as [|y|y|y|l2|d2]; simpl; try (split; [discriminate|congruence]).
  - tauto.
  - rewrite Bool.eqb_true_iff. split; congruence.
  - rewrite Z.eqb_eq. split; congruence.
  - rewrite String.eqb_eq. split; congruence.
  - revert l2. induction l1 as [|x l1 IHl]; intros [|y l2];
      try (split; [discriminate|congruence]).
    + tauto.
    + rewrite andb_true_iff, (IH x (or_introl eq_refl)),
        (IHl (fun z Hz => IH z (or_intror Hz))).
      split; [intros [-> H]; congruence|intros H; injection H as -> ->; auto].
  - revert d2. induction d1 as [|[k x] d1 IHd]; intros [|[k' y] d2];
      try (split; [discriminate|congruence]).
    + tauto.
    + pose proof (IH (k, x) (or_introl eq_refl)) as Hx. cbn [snd] in Hx.
      rewrite !andb_true_iff, String.eqb_eq, Hx,
        (IHd (fun z Hz => IH z (or_intror Hz))).
      split; [intros [[-> ->] H]; congruence|intros H; injection H as -> -> ->; auto].
Qed.

Lemma id_targets_own r : lookup "id" r <> None -> id_targets (get "id" r) r = true.
Proof.
  unfold id_targets, get, get_default. destruct (lookup "id" r); [|congruence].
  intros _. apply value_eqb_eq. reflexivity.
Qed.

Lemma id_targets_get i r : id_targets i r = true -> get "id" r = i.
Proof.
  unfold id_targets, get, get_default. destruct (lookup "id" r); [|discriminate].
  apply value_eqb_eq.
Qed.

Lemma apply_op_typed store o : apply_op store (op_value o) = apply_typed store o.
Proof. destruct o; reflexivity. Qed.

Lemma apply_ops_typed ops : forall store,
  apply_ops store (map op_value ops) = fold_left apply_typed ops store.
Proof.
  unfold apply_ops. induction ops as [|o ops IH]; intros store; simpl.
  - reflexivity.
  - rewrite apply_op_typed. apply IH.
Qed.

Lemma filter_filter {A : Type} (f g : A -> bool) l :
  filter f (filter g l) = filter (fun x => g x && f x) l.
Proof.
  induction l as [|x l IH]; simpl; [reflexivity|].
  destruct (g x); simpl; [destruct (f x)|]; rewrite IH; reflexivity.
Qed.

Lemma live_after_update id data store :
  deactivating data ->
  filter is_live (apply_typed store (OpUpdate id data)) =
  filter (fun r => negb (id_targets id r)) (filter is_live store).
Proof.
  intros Hd. induction store as [|r store IH]; simpl; [reflexivity|].
  simpl in IH. destruct (id_targets id r) eqn:Ht.
  - rewrite Hd, IH. destruct (is_live r); simpl; rewrite ?Ht; reflexivity.
  - rewrite IH. destruct (is_live r); simpl; rewrite ?Ht; reflexivity.
Qed.

(** The live records after a batch: the live records no update targets,
    then the inserted records, when every update deactivates, every
    inserted record is live and none is targeted. *)
Lemma live_after_ops ops : forall store,
  (forall i data, In (OpUpdate i data) ops -> deactivating data) ->
  (forall d, In d (inserts ops) -> is_live d = true /\ spared (targets ops) d = true) ->
  filter is_live (fold_left apply_typed ops store) =
  filter (spared (targets ops)) (filter is_live store) ++ inserts ops.
Proof.
  induction ops as [|o ops IH]; intros store Hdeact Hins.
  - simpl. rewrite app_nil_r. induction (filter is_live store) as [|x l IHl];
      simpl; congruence.
  - cbn [fold_left]. rewrite IH.
    + destruct o as [d|i data].
      * destruct (Hins d (or_introl eq_refl)) as [Hlive Hsp].
        change (targets (OpInsert d :: ops)) with (targets ops) in *.
        change (inserts (OpInsert d :: ops)) with (d :: inserts ops).
        cbn [apply_typed]. rewrite filter_app. cbn [filter]. rewrite Hlive.
        rewrite filter_app. cbn [filter]. rewrite Hsp.
        rewrite <- app_assoc. reflexivity.
      * rewrite live_after_update
          by (apply (Hdeact i data); left; reflexivity).
        change (targets (OpUpdate i data :: ops)) with (i :: targets ops).
        change (inserts (OpUpdate i data :: ops)) with (inserts ops).
        rewrite filter_filter. reflexivity.
    + intros i data H. apply (Hdeact i data). right. exact H.
    + intros d Hd. destruct o as [d0|i data].
      * apply Hins. right. exact Hd.
      * destruct (Hins d) as [Hl Hs]; [exact Hd|].
        split; [exact Hl|].
        change (targets (OpUpdate i data :: ops)) with (i :: targets ops) in Hs.
        cbn [spared forallb] in Hs. apply andb_true_iff in Hs. apply Hs.
Qed.

Lemma targets_app a b : targets (a ++ b) = targets a ++ targets b.
Proof. apply flat_map_app. Qed.

Lemma inserts_app a b : inserts (a ++ b) = inserts a ++ inserts b.
Proof. apply flat_map_app. Qed.

Lemma not_bookkeeping k :
  ~ In k bookkeeping ->
  String.eqb k "previousVersion" = false /\ String.eqb k "version" = false /\
  String.eqb k "dateAdded" = false /\ String.eqb k "isActive" = false.
Proof.
  intros H. repeat split; apply String.eqb_neq; intros ->; apply H; simpl; auto.
Qed.

Lemma new_data_inserted a t :
  inserted_from a
    (dict_display a [("isActive", VBool true); ("dateAdded", t); ("version", VInt 1)]).
Proof.
  split.
  - rewrite lookup_dict_display. reflexivity.
  - intros k Hk. destruct (not_bookkeeping k Hk) as (_ & H2 & H3 & H4).
    rewrite lookup_dict_display. simpl. rewrite H2, H3, H4. reflexivity.
Qed.

Lemma successor_data_inserted E o n version m :
  inserted_from n (successor_data E o n version m).
Proof.
  split.
  - rewrite successor_data_lookup. reflexivity.
  - intros k Hk. destruct (not_bookkeeping k Hk) as (H1 & H2 & H3 & H4).
    rewrite successor_data_lookup, H1, H2, H3, H4. reflexivity.
Qed.

Lemma deactivate_data_deactivating t :
  deactivating [("isActive", VBool false); ("dateDeactivated", t)].
Proof.
  intros r. unfold is_live, get_default. rewrite lookup_dict_display. reflexivity.
Qed.

Lemma delete_data_deactivating t :
  deactivating [("dateDeleted", t); ("isActive", VBool false)].
Proof.
  intros r. unfold is_live, get_default. rewrite lookup_dict_display. reflexivity.
Qed.

Lemma new_ops_typed E l : forall n,
  exists tops,
    new_ops E l n = map op_value tops /\ targets tops = [] /\
    Forall2 inserted_from l (inserts tops) /\
    (forall i data, In (OpUpdate i data) tops -> deactivating data).
Proof.
  induction l as [|a l IH]; intros n.
  - exists []. repeat split; try constructor. intros i data [].
  - destruct (IH (S n)) as (tops & He & Ht & Hi & Hd).
    exists (OpInsert (dict_display a
              [("isActive", VBool true);
               ("dateAdded", VStr (utcnow_isoformat E n)); ("version", VInt 1)])
            :: tops).
    split; [simpl; rewrite He; reflexivity|].
    split; [exact Ht|]. split.
    + constructor; [apply new_data_inserted|exact Hi].
    + intros i data [H|H]; [discriminate|eauto].
Qed.

Lemma updated_ops_typed E l : forall n o,
  updated_ops E l n = Ok o ->
  exists tops,
    o = map op_value tops /\
    targets tops = map (fun u => get "id" (old u)) l /\
    Forall2 inserted_from (map new l) (inserts tops) /\
    (forall i data, In (OpUpdate i data) tops -> deactivating data).
Proof.
  induction l as [|u l IH]; intros n o H; simpl in H.
  - injection H as <-. exists []. repeat split; try constructor. intros i data [].
  - destruct (py_add_one _) as [ver|e]; simpl in H; [|discriminate].
    destruct (updated_ops E l (S (S n))) as [tl|e] eqn:Ht; simpl in H;
      [|discriminate].
    injection H as <-. destruct (IH _ _ Ht) as (tops & -> & Htg & Hi & Hd).
    exists (OpUpdate (get "id" (old u))
              [("isActive", VBool false);
               ("dateDeactivated", VStr (utcnow_isoformat E n))]
            :: OpInsert (successor_data E (old u) (new u) ver (S n)) :: tops).
    split; [reflexivity|].
    split; [cbn [map]; rewrite <- Htg; reflexivity|]. split.
    + constructor; [apply successor_data_inserted|exact Hi].
    + intros i data [H|[H|H]]; [|discriminate|eauto].
      injection H as <- <-. apply deactivate_data_deactivating.
Qed.

Lemma deleted_ops_typed E l : forall n,
  exists tops,
    deleted_ops E l n = map op_value tops /\
    targets tops = map (get "id") l /\ inserts tops = [] /\
    (forall i data, In (OpUpdate i data) tops -> deactivating data).
Proof.
  induction l as [|a l IH]; intros n.
  - exists []. repeat split. intros i data [].
  - destruct (IH (S n)) as (tops & He & Ht & Hi & Hd).
    exists (OpUpdate (get "id" a)
              [("dateDeleted", VStr (utcnow_isoformat E n)); ("isActive", VBool false)]
            :: tops).
    split; [simpl; rewrite He; reflexivity|].
    split; [cbn [map]; rewrite <- Ht; reflexivity|].
    split; [exact Hi|].
    intros i data [H|H]; [|eauto].
    injection H as <- <-. apply delete_data_deactivating.
Qed.

(** A plan, operation by operation: whom it targets and what it inserts. *)
Lemma plan_typed E c w ops w' :
  plan E c w = (Ok ops, w') ->
  exists tops,
    ops = map op_value tops /\
    targets tops = map (fun u => get "id" (old u)) (ch_updated c) ++
                   map (get "id") (ch_deleted c) /\
    Forall2 inserted_from (ch_new c ++ map new (ch_updated c)) (inserts tops) /\
    (forall i data, In (OpUpdate i data) tops -> deactivating data).
Proof.
  intros Hp. apply plan_inv in Hp. destruct Hp as (o & Ho & -> & _).
  destruct (new_ops_typed E (ch_new c) (clock w)) as (t1 & -> & Ht1 & Hi1 & Hd1).
  destruct (updated_ops_typed _ _ _ _ Ho) as (t2 & -> & Ht2 & Hi2 & Hd2).
  destruct (deleted_ops_typed E (ch_deleted c)
              (2 * List.length (ch_updated c) + (List.length (ch_new c) + clock w)))
    as (t3 & -> & Ht3 & Hi3 & Hd3).
  exists (t1 ++ t2 ++ t3). rewrite !map_app, !targets_app, !inserts_app.
  rewrite Ht1, Ht2, Ht3, Hi3, app_nil_r. cbn [app].
  split; [reflexivity|]. split; [reflexivity|]. split.
  - apply Forall2_app; assumption.
  - intros i data H. rewrite !in_app_iff in H. destruct H as [H|[H|H]]; eauto.
Qed.

(** Closes [~ In k bookkeeping] for a literal [k]. *)
Ltac not_bookkept :=
  let Hb := fresh "Hb" in
  intros Hb; simpl in Hb;
  repeat (destruct Hb as [Hb|Hb]; [discriminate Hb|]); exact Hb.

Lemma tracked_not_bookkeeping k : In k key_fields -> ~ In k bookkeeping.
Proof.
  intros Hk Hb. simpl in Hk, Hb.
  repeat (destruct Hk as [<-|Hk];
          [repeat (destruct Hb as [Hb|Hb]; [discriminate Hb|]); exact Hb|]).
  exact Hk.
Qed.

Lemma inserted_identity d d' :
  inserted_from d d' -> identity_key d' = identity_key d.
Proof.
  intros [_ H]. unfold identity_key, get, get_default.
  rewrite (H "name"), (H "id"); [reflexivity| |]; not_bookkept.
Qed.

Lemma inserted_key d d' : inserted_from d d' -> record_key d' = record_key d.
Proof. intros H. unfold record_key. rewrite (inserted_identity _ _ H). reflexivity. Qed.

Lemma inserted_hash d d' :
  inserted_from d d' -> compute_assistant_hash d' = compute_assistant_hash d.
Proof.
  intros [_ H]. apply fingerprint_same_fields. intros k Hk.
  apply same_field_of_lookup, H, tracked_not_bookkeeping, Hk.
Qed.

Lemma inserted_live d d' :
  inserted_from d d' -> truthy (get "dateDeleted" d) = false -> is_live d' = true.
Proof.
  intros [Ha H] Hd. unfold is_live, get, get_default in *. rewrite Ha.
  rewrite (H "dateDeleted"); [rewrite Hd; reflexivity|]. not_bookkept.
Qed.

Lemma inserted_targets d d' i :
  inserted_from d d' -> id_targets i d' = id_targets i d.
Proof.
  intros [_ H]. unfold id_targets. rewrite (H "id"); [reflexivity|]. not_bookkept.
Qed.

Lemma Forall2_inserted_keys l l' :
  Forall2 inserted_from l l' -> keys_of l' = keys_of l.
Proof.
  induction 1 as [|d d' l l' Hd _ IH]; [reflexivity|].
  unfold keys_of in *. cbn [flat_map]. rewrite (inserted_key _ _ Hd), IH.
  reflexivity.
Qed.

Lemma Forall2_inserted_right l l' d' :
  Forall2 inserted_from l l' -> In d' l' -> exists d, In d l /\ inserted_from d d'.
Proof.
  induction 1 as [|d0 d0' l l' Hd _ IH]; intros Hin; [contradiction|].
  destruct Hin as [<-|Hin].
  - exists d0. split; [left; reflexivity|exact Hd].
  - destruct (IH Hin) as (d & H1 & H2). exists d. split; [right|]; assumption.
Qed.

Lemma Forall2_inserted_left l l' d :
  Forall2 inserted_from l l' -> In d l -> exists d', In d' l' /\ inserted_from d d'.
Proof.
  induction 1 as [|d0 d0' l l' Hd _ IH]; intros Hin; [contradiction|].
  destruct Hin as [<-|Hin].
  - exists d0'. split; [left; reflexivity|exact Hd].
  - destruct (IH Hin) as (d' & H1 & H2). exists d'. split; [right|]; assumption.
Qed.

Lemma in_keys_of k l :
  In k (keys_of l) <-> exists a, In a l /\ record_key a = Some k.
Proof.
  unfold keys_of. rewrite in_flat_map. split.
  - intros (a & Ha & Hk). exists a. split; [exact Ha|].
    destruct (record_key a); [|contradiction]. destruct Hk as [->|[]]. reflexivity.
  - intros (a & Ha & Hk). exists a. split; [exact Ha|]. rewrite Hk. left. reflexivity.
Qed.

Lemma keys_of_inj l : forall a a' k,
  NoDup (keys_of l) -> In a l -> In a' l ->
  record_key a = Some k -> record_key a' = Some k -> a = a'.
Proof.
  induction l as [|x l IH]; intros a a' k Hnd Ha Ha' Hk Hk'; [contradiction|].
  change (keys_of (x :: l)) with
    (match record_key x with Some k => [k] | None => [] end ++ keys_of l) in Hnd.
  assert (Hl : NoDup (keys_of l)).
  { destruct (record_key x); [inversion Hnd; assumption|exact Hnd]. }
  assert (Hx : forall b, In b l -> record_key b = Some k -> record_key x <> Some k).
  { intros b Hb Hkb Hkx. rewrite Hkx in Hnd. inversion Hnd as [|? ? Hnot _]; subst.
    apply Hnot. apply in_keys_of. eauto. }
  destruct Ha as [<-|Ha], Ha' as [<-|Ha'].
  - reflexivity.
  - exfalso. exact (Hx _ Ha' Hk' Hk).
  - exfalso. exact (Hx _ Ha Hk Hk').
  - exact (IH _ _ _ Hl Ha Ha' Hk Hk').
Qed.

Lemma keys_of_filter_nodup f l : NoDup (keys_of l) -> NoDup (keys_of (filter f l)).
Proof.
  induction l as [|x l IH]; intros Hnd; [constructor|].
  change (keys_of (x :: l)) with
    (match record_key x with Some k => [k] | None => [] end ++ keys_of l) in Hnd.
  cbn [filter]. destruct (f x).
  - change (keys_of (x :: filter f l)) with
      (match record_key x with Some k => [k] | None => [] end
       ++ keys_of (filter f l)).
    destruct (record_key x) as [k|]; simpl in *.
    + inversion Hnd as [|? ? Hnot Hl]; subst. constructor; [|auto].
      intros Hin. apply Hnot. apply in_keys_of in Hin.
      destruct Hin as (a & Ha & Hk). apply filter_In in Ha.
      apply in_keys_of. exists a. tauto.
    + auto.
  - apply IH. destruct (record_key x); [inversion Hnd; assumption|exact Hnd].
Qed.

Lemma map_inj_in {A B : Type} (f : A -> B) l : forall x y,
  NoDup (map f l) -> In x l -> In y l -> f x = f y -> x = y.
Proof.
  induction l as [|z l IH]; intros x y Hnd Hx Hy He; [contradiction|].
  simpl in Hnd. inversion Hnd as [|? ? Hnot Hl]; subst.
  destruct Hx as [<-|Hx], Hy as [<-|Hy].
  - reflexivity.
  - exfalso. apply Hnot. rewrite He. apply in_map. exact Hy.
  - exfalso. apply Hnot. rewrite <- He. apply in_map. exact Hx.
  - exact (IH _ _ Hl Hx Hy He).
Qed.

(** The loop succeeds exactly when no record has an unhashable key. *)
Lemma yaml_map_loop_ok l : forall m,
  (exists m', yaml_map_loop l m = Ok m') <->
  (forall a, In a l -> truthy (identity_key a) = true -> record_key a <> None).
Proof.
  induction l as [|a l IH]; intros m.
  - simpl. split; [intros _ a []|eauto].
  - rewrite yaml_map_loop_step. destruct (record_key a) as [k|] eqn:Hk.
    + rewrite IH. split.
      * intros H b [<-|Hb] Ht; [congruence|auto].
      * intros H b Hb. apply H. right. exact Hb.
    + destruct (truthy (identity_key a)) eqn:Ht.
      * split; [intros [m' H]; discriminate|].
        intros H. exfalso. apply (H a (or_introl eq_refl) Ht). exact Hk.
      * rewrite IH. split.
        -- intros H b [<-|Hb] Ht'; [congruence|auto].
        -- intros H b Hb. apply H. right. exact Hb.
Qed.

(** With distinct keys, each keyed record is the one filed under its key. *)
Lemma loop_get_unique l m k a :
  yaml_map_loop l [] = Ok m -> NoDup (keys_of l) ->
  In a l -> record_key a = Some k -> kmap_get k m = Some a.
Proof.
  intros Hl Hnd Ha Hk.
  destruct (yaml_map_loop_inv _ _ _ Hl kmap_ok_nil) as ([Hndm Hkm] & Hkeys & Hsrc).
  assert (Hin : In k (map fst m)).
  { apply Hkeys. right. apply in_keys_of. eauto. }
  apply in_map_iff in Hin. destruct Hin as ([k' a'] & Hfst & Hin).
  simpl in Hfst. subst k'.
  assert (a' = a).
  { destruct (Hsrc _ _ Hin) as [[]|Ha'].
    exact (keys_of_inj l a' a k Hnd Ha' Ha (Hkm _ _ Hin) Hk). }
  subst a'. apply kmap_get_unique; assumption.
Qed.

Section RoundTrip.

Variables (D C : list dict) (ym cm : kmap).
Variables (ids : list value) (inserted : list dict).

Hypothesis Hy : yaml_map_loop D [] = Ok ym.
Hypothesis Hc : yaml_map_loop (filter is_live C) [] = Ok cm.
Hypothesis Hids_present :
  forall a, In a (filter is_live C) -> lookup "id" a <> None.
Hypothesis Hids_distinct : NoDup (map (get "id") (filter is_live C)).
Hypothesis Hkeys_distinct : NoDup (keys_of (filter is_live C)).
Hypothesis Hids :
  ids = map (fun u => get "id" (old u)) (updated_of cm ym) ++
        map (get "id") (deleted_of ym cm).
Hypothesis Hinserted :
  Forall2 inserted_from (new_of cm ym ++ map new (updated_of cm ym)) inserted.
Hypothesis Hdeclared_ids :
  forall d a, In d D -> In a (filter is_live C) ->
              id_targets (get "id" a) d = false.
Hypothesis Hdeclared_live :
  forall d, In d D -> truthy (get "dateDeleted" d) = false.

Let live' : list dict := filter (spared ids) (filter is_live C) ++ inserted.

Lemma rt_ym : kmap_ok ym /\ (forall k a, In (k, a) ym -> In a D).
Proof.
  destruct (yaml_map_loop_inv _ _ _ Hy kmap_ok_nil) as (Hok & _ & Hsrc).
  split; [exact Hok|]. intros k a H. destruct (Hsrc _ _ H) as [[]|H']. exact H'.
Qed.

Lemma rt_cm :
  kmap_ok cm /\ (forall k a, In (k, a) cm -> In a (filter is_live C)) /\
  (forall k, In k (map fst cm) <-> In k (keys_of (filter is_live C))).
Proof.
  destruct (yaml_map_loop_inv _ _ _ Hc kmap_ok_nil) as (Hok & Hkeys & Hsrc).
  split; [exact Hok|]. split.
  - intros k a H. destruct (Hsrc _ _ H) as [[]|H']. exact H'.
  - intros k. rewrite Hkeys. simpl. tauto.
Qed.

(** A live record is the one [current_map] holds for its key. *)
Lemma rt_current a k :
  In a (filter is_live C) -> record_key a = Some k -> kmap_get k cm = Some a.
Proof. intros Ha Hk. exact (loop_get_unique _ _ _ _ Hc Hkeys_distinct Ha Hk). Qed.

Lemma rt_entry_unique k d d' : In (k, d) ym -> In (k, d') ym -> d = d'.
Proof.
  destruct rt_ym as [[Hnd _] _]. intros H H'.
  apply (kmap_get_unique _ _ _ Hnd) in H, H'. congruence.
Qed.

(** The old half of an Updated pair and a Deleted record are targeted. *)
Lemma rt_targeted a :
  In a (deleted_of ym cm) \/ (exists u, In u (updated_of cm ym) /\ old u = a) ->
  spared ids a = false.
Proof.
  intros H.
  assert (Hlive : In a (filter is_live C)).
  { destruct rt_cm as (_ & Hsrc & _). destruct H as [H|(u & H & <-)].
    - apply in_deleted_of in H. destruct H as (k & H & _). eauto.
    - apply in_updated_of in H. destruct H as (k & _ & H & _).
      apply kmap_get_in in H. eauto. }
  assert (Hin : In (get "id" a) ids).
  { rewrite Hids, in_app_iff. destruct H as [H|(u & H & <-)].
    - right. apply in_map. exact H.
    - left. apply (in_map (fun u => get "id" (old u))). exact H. }
  destruct (spared ids a) eqn:Hs; [|reflexivity].
  unfold spared in Hs. rewrite forallb_forall in Hs.
  specialize (Hs _ Hin). rewrite (id_targets_own a (Hids_present a Hlive)) in Hs.
  discriminate.
Qed.

(** The current record of an Unchanged key is targeted by no update. *)
Lemma rt_spared a k d :
  In a (filter is_live C) -> record_key a = Some k -> In (k, d) ym ->
  compute_assistant_hash d = compute_assistant_hash a ->
  spared ids a = true.
Proof.
  intros Ha Hk Hd Hh. destruct rt_cm as ([_ Hkc] & Hsrc & _).
  unfold spared. apply forallb_forall. intros i Hi.
  destruct (id_targets i a) eqn:Ht; [exfalso|reflexivity].
  apply id_targets_get in Ht.
  rewrite Hids, in_app_iff, !in_map_iff in Hi.
  destruct Hi as [(u & Hu & Hin)|(b & Hb & Hin)].
  - apply in_updated_of in Hin. destruct Hin as (k' & Hn & Hg & Hne).
    assert (Ho : In (old u) (filter is_live C))
      by (apply kmap_get_in in Hg; eauto).
    assert (a = old u).
    { apply (map_inj_in (get "id") (filter is_live C));
        [exact Hids_distinct|exact Ha|exact Ho|congruence]. }
    subst a. apply kmap_get_in in Hg. rewrite (Hkc _ _ Hg) in Hk.
    injection Hk as ->. rewrite (rt_entry_unique _ _ _ Hd Hn) in Hh.
    contradiction.
  - apply in_deleted_of in Hin. destruct Hin as (k' & Hin & Hm).
    assert (a = b).
    { apply (map_inj_in (get "id") (filter is_live C));
        [exact Hids_distinct|exact Ha|eauto|congruence]. }
    subst b. rewrite (Hkc _ _ Hin) in Hk. injection Hk as ->.
    apply (in_map fst) in Hd. apply kmap_mem_in in Hd. simpl in Hd. congruence.
Qed.

(** What was inserted: one record per New and Updated declared record. *)
Lemma rt_inserted_source d' :
  In d' inserted ->
  exists k d, In (k, d) ym /\ inserted_from d d' /\ record_key d' = Some k.
Proof.
  intros Hin. destruct rt_ym as [[_ Hky] _].
  destruct (Forall2_inserted_right _ _ _ Hinserted Hin) as (d & Hd & Hfrom).
  rewrite in_app_iff, in_map_iff in Hd.
  assert (Hk : exists k, In (k, d) ym).
  { destruct Hd as [Hd|(u & <- & Hu)].
    - apply in_new_of in Hd. destruct Hd as (k & Hd & _). eauto.
    - apply in_updated_of in Hu. destruct Hu as (k & Hu & _). eauto. }
  destruct Hk as [k Hk]. exists k, d. split; [exact Hk|]. split; [exact Hfrom|].
  rewrite (inserted_key _ _ Hfrom). apply Hky. exact Hk.
Qed.

Lemma rt_inserted_ok d' :
  In d' inserted -> is_live d' = true /\ spared ids d' = true.
Proof.
  intros Hin. destruct (rt_inserted_source _ Hin) as (k & d & Hd & Hfrom & _).
  destruct rt_ym as [_ Hsrc]. destruct rt_cm as (_ & Hsrcc & _).
  assert (HdD : In d D) by eauto. split.
  - apply (inserted_live _ _ Hfrom). apply Hdeclared_live. exact HdD.
  - unfold spared. apply forallb_forall. intros i Hi.
    rewrite (inserted_targets _ _ i Hfrom).
    rewrite Hids, in_app_iff, !in_map_iff in Hi.
    destruct Hi as [(u & <- & Hu)|(b & <- & Hb)].
    + apply in_updated_of in Hu. destruct Hu as (k' & _ & Hg & _).
      apply kmap_get_in in Hg. rewrite Hdeclared_ids; eauto.
    + apply in_deleted_of in Hb. destruct Hb as (k' & Hb & _).
      rewrite Hdeclared_ids; eauto.
Qed.

Lemma rt_inserted_keys :
  keys_of inserted =
  keys_of (new_of cm ym) ++ keys_of (map new (updated_of cm ym)).
Proof. rewrite (Forall2_inserted_keys _ _ Hinserted). apply keys_of_app. Qed.

(** A spared live record has an Unchanged key. *)
Lemma rt_spared_unchanged a k :
  In a (filter is_live C) -> spared ids a = true -> record_key a = Some k ->
  exists d, In (k, d) ym /\ compute_assistant_hash d = compute_assistant_hash a.
Proof.
  intros Ha Hs Hk. pose proof (rt_current _ _ Ha Hk) as Hg.
  destruct (kmap_get k ym) as [d|] eqn:Hd.
  - apply kmap_get_in in Hd. exists d. split; [exact Hd|].
    destruct (String.eqb_spec (compute_assistant_hash d) (compute_assistant_hash a))
      as [He|Hne]; [exact He|].
    exfalso. rewrite rt_targeted in Hs; [discriminate|].
    right. exists (mk_update a d). split; [|reflexivity].
    apply in_updated_of. exists k. auto.
  - exfalso. rewrite rt_targeted in Hs; [discriminate|].
    left. apply in_deleted_of. exists k. split; [apply kmap_get_in; exact Hg|].
    unfold kmap_mem. rewrite Hd. reflexivity.
Qed.

Lemma rt_live_keys_distinct : NoDup (keys_of live').
Proof.
  subst live'. rewrite keys_of_app. apply NoDup_app.
  - apply keys_of_filter_nodup. exact Hkeys_distinct.
  - rewrite rt_inserted_keys. destruct rt_ym as [[Hnd Hky] _].
    pose proof (declared_keys_shared_out cm ym Hky) as Hp.
    apply (Permutation_NoDup (Permutation_sym Hp)) in Hnd.
    rewrite app_assoc in Hnd. apply NoDup_app_remove_r in Hnd. exact Hnd.
  - intros k Hk Hk'. apply in_keys_of in Hk. destruct Hk as (a & Ha & Hka).
    apply filter_In in Ha. destruct Ha as [Ha Hs].
    destruct (rt_spared_unchanged _ _ Ha Hs Hka) as (d & Hd & Hh).
    pose proof (rt_current _ _ Ha Hka) as Hg.
    apply in_keys_of in Hk'. destruct Hk' as (d' & Hd' & Hkd').
    destruct (rt_inserted_source _ Hd') as (k' & d0 & Hd0 & Hfrom & Hk0).
    rewrite Hkd' in Hk0. injection Hk0 as <-.
    rewrite (rt_entry_unique _ _ _ Hd0 Hd) in Hfrom.
    destruct (Forall2_inserted_right _ _ _ Hinserted Hd') as (d1 & Hd1 & Hfrom1).
    assert (Hk1 : record_key d1 = Some k).
    { rewrite <- (inserted_key _ _ Hfrom1). exact Hkd'. }
    destruct rt_ym as [[_ Hky] _].
    rewrite in_app_iff, in_map_iff in Hd1.
    destruct Hd1 as [Hn|(u & <- & Hu)].
    + apply in_new_of in Hn. destruct Hn as (k1 & Hn & Hnone).
      rewrite (Hky _ _ Hn) in Hk1. injection Hk1 as ->. congruence.
    + apply in_updated_of in Hu. destruct Hu as (k1 & Hn & Hg1 & Hne).
      rewrite (Hky _ _ Hn) in Hk1. injection Hk1 as ->.
      rewrite Hg in Hg1. injection Hg1 as Hold.
      rewrite (rt_entry_unique _ _ _ Hn Hd) in Hne. congruence.
Qed.

Lemma rt_loop : exists cm', yaml_map_loop live' [] = Ok cm'.
Proof.
  apply yaml_map_loop_ok. intros a Ha Ht. subst live'.
  apply in_app_iff in Ha. destruct Ha as [Ha|Ha].
  - apply filter_In in Ha. destruct Ha as [Ha _].
    exact (proj1 (yaml_map_loop_ok _ []) (ex_intro _ cm Hc) a Ha Ht).
  - destruct (rt_inserted_source _ Ha) as (k & d & _ & _ & Hk). congruence.
Qed.

Variable cm' : kmap.
Hypothesis Hc' : yaml_map_loop live' [] = Ok cm'.

(** Every declared key now has a current record with its fingerprint. *)
Lemma rt_declared k d :
  In (k, d) ym ->
  exists a, kmap_get k cm' = Some a /\
            compute_assistant_hash d = compute_assistant_hash a.
Proof.
  intros Hd. destruct rt_ym as [[_ Hky] _]. destruct rt_cm as ([_ Hkc] & Hsrc & _).
  assert (Hfresh : In d (new_of cm ym ++ map new (updated_of cm ym)) ->
                   exists a, kmap_get k cm' = Some a /\
                             compute_assistant_hash d = compute_assistant_hash a).
  { intros Hin.
    destruct (Forall2_inserted_left _ _ _ Hinserted Hin) as (d' & Hd' & Hfrom).
    exists d'. split; [|symmetry; apply inserted_hash; exact Hfrom].
    apply (loop_get_unique live'); [exact Hc'|exact rt_live_keys_distinct| |].
    - subst live'. apply in_app_iff. right. exact Hd'.
    - rewrite (inserted_key _ _ Hfrom). apply Hky. exact Hd. }
  destruct (kmap_get k cm) as [cur|] eqn:Hg.
  - destruct (String.eqb_spec (compute_assistant_hash d) (compute_assistant_hash cur))
      as [He|Hne].
    + exists cur. split; [|exact He].
      pose proof (kmap_get_in _ _ _ Hg) as Hin.
      apply (loop_get_unique live'); [exact Hc'|exact rt_live_keys_distinct| |].
      * subst live'. apply in_app_iff. left. apply filter_In.
        split; [eauto|]. apply (rt_spared cur k d); eauto.
      * eauto.
    + apply Hfresh. apply in_app_iff. right.
      apply in_map_iff. exists (mk_update cur d). split; [reflexivity|].
      apply in_updated_of. exists k. auto.
  - apply Hfresh. apply in_app_iff. left. apply in_new_of. eauto.
Qed.

(** Every current key is now a declared key. *)
Lemma rt_current_declared k a : In (k, a) cm' -> kmap_mem k ym = true.
Proof.
  intros Hin.
  destruct (yaml_map_loop_inv _ _ _ Hc' kmap_ok_nil) as ([_ Hkc'] & _ & Hsrc).
  pose proof (Hkc' _ _ Hin) as Hk.
  destruct (Hsrc _ _ Hin) as [[]|Ha]. subst live'.
  apply in_app_iff in Ha. apply kmap_mem_in. destruct Ha as [Ha|Ha].
  - apply filter_In in Ha. destruct Ha as [Ha Hs].
    destruct (rt_spared_unchanged _ _ Ha Hs Hk) as (d & Hd & _).
    apply (in_map fst) in Hd. exact Hd.
  - destruct (rt_inserted_source _ Ha) as (k' & d & Hd & _ & Hk').
    rewrite Hk in Hk'. injection Hk' as <-.
    apply (in_map fst) in Hd. exact Hd.
Qed.

Lemma rt_rediff :
  new_of cm' ym = [] /\ updated_of cm' ym = [] /\ deleted_of ym cm' = [] /\
  unchanged_of cm' ym = map snd ym.
Proof.
  assert (Hall : forall m, (forall k d, In (k, d) m -> In (k, d) ym) ->
            new_of cm' m = [] /\ updated_of cm' m = [] /\
            unchanged_of cm' m = map snd m).
  { induction m as [|[k d] m IH]; intros Hm; [repeat split|].
    destruct IH as (H1 & H2 & H3); [intros; apply Hm; right; assumption|].
    rewrite new_of_cons, updated_of_cons, unchanged_of_cons, H1, H2, H3.
    destruct (rt_declared k d (Hm k d (or_introl eq_refl))) as (a & -> & ->).
    rewrite String.eqb_refl. repeat split. }
  destruct (Hall ym (fun k d H => H)) as (H1 & H2 & H3).
  repeat split; try assumption.
  assert (Hdel : forall m, (forall k a, In (k, a) m -> In (k, a) cm') ->
            deleted_of ym m = []).
  { induction m as [|[k a] m IH]; intros Hm; [reflexivity|].
    rewrite deleted_of_cons, IH by (intros; apply Hm; right; assumption).
    rewrite (rt_current_declared k a (Hm k a (or_introl eq_refl))). reflexivity. }
  apply Hdel. auto.
Qed.

End RoundTrip.

Lemma declared_records_shared_out cm ym d :
  In d (map snd ym) <->
  In d (new_of cm ym) \/ In d (map new (updated_of cm ym)) \/
  In d (unchanged_of cm ym).
Proof.
  rewrite in_new_of, in_unchanged_of, !in_map_iff. split.
  - intros ([k d'] & <- & Hin). simpl.
    destruct (kmap_get k cm) as [cur|] eqn:Hg; [|left; eauto].
    destruct (String.eqb_spec (compute_assistant_hash d') (compute_assistant_hash cur))
      as [He|Hne].
    + right. right. eauto.
    + right. left. exists (mk_update cur d'). split; [reflexivity|].
      apply in_updated_of. eauto.
  - intros [(k & H & _)|[(u & <- & H)|(k & cur & H & _)]].
    + exists (k, d). auto.
    + apply in_updated_of in H. destruct H as (k & H & _). exists (k, new u). auto.
    + exists (k, d). auto.
Qed.

Lemma keys_of_entries m :
  (forall k a, In (k, a) m -> record_key a = Some k) ->
  keys_of (map snd m) = map fst m.
Proof.
  induction m as [|[k a] m IH]; intros H; [reflexivity|].
  cbn [map fst snd].
  change (a :: map snd m) with ([a] ++ map snd m). rewrite keys_of_app.
  rewrite (keys_of_one a k) by (apply H; left; reflexivity).
  rewrite IH by (intros; apply H; right; assumption). reflexivity.
Qed.

(** C4, as far as it holds: suppose the diff of D against C returns, one
    can be added to every old version, every live record of C stores an
    id, no two live records of C share an id or an identity key, no
    declared record stores the id of a live record of C, and no declared
    record has dateDeleted set.  Then the plan exists, and after its
    operations are applied to C (an insert added at the end, an update
    merged into the records that store its id) the diff of D against the
    result returns with New, Updated and Deleted empty; Unchanged holds
    the declared records that the first diff put in New, Updated or
    Unchanged, which cover every declared key. *)
Theorem rediff_after_apply_all_unchanged E D C c w :
  detect_changes D C = Ok c ->
  addable_versions c ->
  (forall a, In a C -> is_live a = true -> lookup "id" a <> None) ->
  NoDup (map (get "id") (filter is_live C)) ->
  NoDup (keys_of (filter is_live C)) ->
  (forall d a, In d D -> In a C -> is_live a = true ->
               id_targets (get "id" a) d = false) ->
  (forall d, In d D -> truthy (get "dateDeleted" d) = false) ->
  exists ops w' r',
    plan E c w = (Ok ops, w') /\
    detect_changes D (apply_ops C ops) = Ok r' /\
    ch_new r' = [] /\ ch_updated r' = [] /\ ch_deleted r' = [] /\
    (forall d, In d (ch_unchanged r') <->
               In d (ch_new c) \/ In d (map new (ch_updated c)) \/
               In d (ch_unchanged c)) /\
    (forall k, In k (keys_of D) <-> In k (keys_of (ch_unchanged r'))).
Proof.
  intros Hdiff Hadd Hpresent Hids Hkeys Hdecl Hlive.
  destruct (detect_changes_inv _ _ _ Hdiff)
    as (ym & cm & Hy & Hc & Hoky & Hokc & Hkeysy & _ & _ & _ & ->).
  destruct (plan_total E _ w Hadd) as (ops & w' & Hp).
  destruct (plan_typed _ _ _ _ _ Hp) as (tops & -> & Htg & Hins & Hdeact).
  cbn [ch_new ch_updated ch_deleted ch_unchanged] in *.
  assert (Hpresent' : forall a, In a (filter is_live C) -> lookup "id" a <> None).
  { intros a Ha. apply filter_In in Ha. apply Hpresent; tauto. }
  assert (Hdecl' : forall d a, In d D -> In a (filter is_live C) ->
                               id_targets (get "id" a) d = false).
  { intros d a Hd Ha. apply filter_In in Ha. apply Hdecl; tauto. }
  pose proof (rt_inserted_ok D C ym cm (targets tops) (inserts tops)
                Hy Hc Htg Hins Hdecl' Hlive) as Hok.
  pose proof (live_after_ops tops C Hdeact Hok) as Hlive'.
  destruct (rt_loop D C ym cm (targets tops) (inserts tops) Hy Hc Hins)
    as [cm' Hc'].
  destruct (rt_rediff D C ym cm (targets tops) (inserts tops)
              Hy Hc Hpresent' Hids Hkeys Htg Hins cm' Hc')
    as (Hn & Hu & Hd & Hun).
  exists (map op_value tops), w'.
  exists (mk_changes [] [] [] (map snd ym)).
  split; [exact Hp|]. split.
  { rewrite detect_changes_eq, Hy, apply_ops_typed, Hlive', Hc'.
    cbn [rbind]. rewrite Hn, Hu, Hd, Hun. reflexivity. }
  cbn [ch_new ch_updated ch_deleted ch_unchanged].
  repeat split; try reflexivity.
  - apply declared_records_shared_out.
  - apply declared_records_shared_out.
  - intros H. rewrite (keys_of_entries ym (proj2 Hoky)). apply Hkeysy. exact H.
  - intros H. rewrite (keys_of_entries ym (proj2 Hoky)) in H. apply Hkeysy. exact H.
Qed.

Lemma rediff_after_apply_all_unchanged_witness :
  exists ops w' r',
    plan quiet_env versioned_update initial_world = (Ok ops, w') /\
    detect_changes [declared_a] (apply_ops [persisted_a] ops) = Ok r' /\
    ch_new r' = [] /\ ch_updated r' = [] /\ ch_deleted r' = [].
Proof.
  destruct (rediff_after_apply_all_unchanged quiet_env [declared_a] [persisted_a]
              versioned_update initial_world)
    as (ops & w' & r' & Hp & Hr & Hn & Hu & Hd & _).
  - vm_compute. reflexivity.
  - intros u [<-|[]]. eexists. reflexivity.
  - intros a [<-|[]] _. discriminate.
  - vm_compute. repeat constructor. intros [].
  - vm_compute. repeat constructor. intros [].
  - intros d a [<-|[]] [<-|[]] _. reflexivity.
  - intros d [<-|[]]. reflexivity.
  - exists ops, w', r'. auto.
Defined.

(** C4 as it is stated fails.  [declared_n] is New and [persisted_z],
    which stores the same id, is Deleted; the plan inserts the first and
    then updates id 9, which deactivates both, so the second diff finds
    [declared_n] New again. *)
Lemma rediff_after_apply_not_unchanged :
  exists c ops r',
    detect_changes [declared_n] [persisted_z] = Ok c /\
    fst (plan quiet_env c initial_world) = Ok ops /\
    detect_changes [declared_n] (apply_ops [persisted_z] ops) = Ok r' /\
    ch_new r' = [declared_n] /\ ch_unchanged r' = [].
Proof.
  do 3 eexists. split; [vm_compute; reflexivity|].
  split; [vm_compute; reflexivity|].
  split; [vm_compute; reflexivity|].
  split; reflexivity.
Qed.

(** The other conditions of the theorem are needed as well.  A live record
    without id is never reached by the update meant for it; a declared
    record that comes with a dateDeleted is inserted as it is; of two live
    records under one key only the last is deleted; an update on an id
    that two live records share deactivates both. *)
Lemma rediff_needs_every_condition :
  (exists c ops r',
     detect_changes [] [no_author] = Ok c /\
     fst (plan quiet_env c initial_world) = Ok ops /\
     detect_changes [] (apply_ops [no_author] ops) = Ok r' /\
     ch_deleted r' = [no_author]) /\
  (exists c ops r',
     detect_changes [("dateDeleted", VStr "2020-01-01") :: no_author] [] = Ok c /\
     fst (plan quiet_env c initial_world) = Ok ops /\
     detect_changes [("dateDeleted", VStr "2020-01-01") :: no_author]
                    (apply_ops [] ops) = Ok r' /\
     ch_new r' = [("dateDeleted", VStr "2020-01-01") :: no_author]) /\
  (exists c ops r',
     detect_changes [] [no_author ++ [("id", VInt 1)]; no_author ++ [("id", VInt 2)]]
     = Ok c /\
     fst (plan quiet_env c initial_world) = Ok ops /\
     detect_changes []
       (apply_ops [no_author ++ [("id", VInt 1)]; no_author ++ [("id", VInt 2)]] ops)
     = Ok r' /\
     ch_deleted r' = [no_author ++ [("id", VInt 1)]]) /\
  (exists c ops r',
     detect_changes [declared_a; [("name", VStr "B")]]
                    [unversioned_a; [("name", VStr "B"); ("id", VInt 7)]] = Ok c /\
     fst (plan quiet_env c initial_world) = Ok ops /\
     detect_changes [declared_a; [("name", VStr "B")]]
       (apply_ops [unversioned_a; [("name", VStr "B"); ("id", VInt 7)]] ops)
     = Ok r' /\
     ch_new r' = [[("name", VStr "B")]]).
Proof.
  repeat split; do 3 eexists;
    (split; [vm_compute; reflexivity|]);
    (split; [vm_compute; reflexivity|]);
    (split; [vm_compute; reflexivity|]); reflexivity.
Qed.

(* ================================================================= *)
(** * Further properties of the script *)

(** ** Which record and which order the diff keeps *)

Lemma kmap_get_after_set k a m k' :
  kmap_get k' (kmap_set k a m) = if hkey_eqb k' k then Some a else kmap_get k' m.
Proof.
  induction m as [|[k0 a0] m IH]; simpl.
  - reflexivity.
  - destruct (hkey_eqb_spec k k0) as [->|Hne]; simpl.
    + destruct (hkey_eqb k' k0); reflexivity.
    + rewrite IH. destruct (hkey_eqb_spec k' k0) as [->|Hne'].
      * destruct (hkey_eqb_spec k0 k); congruence.
      * reflexivity.
Qed.

Lemma hkey_mem_in k l : hkey_mem k l = true <-> In k l.
Proof.
  unfold hkey_mem. rewrite existsb_exists. split.
  - intros (x & Hx & He). destruct (hkey_eqb_spec k x); congruence.
  - intros H. exists k. split; [exact H|]. destruct (hkey_eqb_spec k k); congruence.
Qed.

Lemma kmap_mem_keys k m : kmap_mem k m = hkey_mem k (map fst m).
Proof.
  destruct (hkey_mem k (map fst m)) eqn:H.
  - apply kmap_mem_in, hkey_mem_in, H.
  - destruct (kmap_mem k m) eqn:H'; [|reflexivity].
    apply kmap_mem_in, hkey_mem_in in H'. congruence.
Qed.

Lemma loop_get_last k l : forall m m',
  yaml_map_loop l m = Ok m' ->
  kmap_get k m' =
  fold_left (fun found a =>
               match record_key a with
               | Some k' => if hkey_eqb k k' then Some a else found
               | None => found
               end) l (kmap_get k m).
Proof.
  induction l as [|a l IH]; intros m m' H.
  - simpl in H. injection H as <-. reflexivity.
  - rewrite yaml_map_loop_step in H. cbn [fold_left].
    destruct (record_key a) as [k'|].
    + rewrite (IH _ _ H), kmap_get_after_set. reflexivity.
    + destruct (truthy (identity_key a)); [discriminate|]. exact (IH _ _ H).
Qed.

Lemma loop_keys_order l : forall m m',
  yaml_map_loop l m = Ok m' ->
  map fst m' =
  fold_left (fun seen k => if hkey_mem k seen then seen else seen ++ [k])
            (keys_of l) (map fst m).
Proof.
  induction l as [|a l IH]; intros m m' H.
  - simpl in H. injection H as <-. reflexivity.
  - rewrite yaml_map_loop_step in H.
    change (a :: l) with ([a] ++ l). rewrite keys_of_app, fold_left_app.
    destruct (record_key a) as [k'|] eqn:Hk.
    + rewrite (keys_of_one _ _ Hk). cbn [fold_left].
      rewrite (IH _ _ H), kmap_set_keys, kmap_mem_keys. reflexivity.
    + destruct (truthy (identity_key a)); [discriminate|].
      unfold keys_of at 2. cbn [flat_map]. rewrite Hk. exact (IH _ _ H).
Qed.

Lemma in_seen_order k l : In k (seen_order l) <-> In k l.
Proof.
  unfold seen_order.
  assert (H : forall seen,
             In k (fold_left (fun seen k => if hkey_mem k seen then seen
                                            else seen ++ [k]) l seen)
             <-> In k seen \/ In k l).
  { induction l as [|x l IH]; intros seen; simpl; [tauto|].
    rewrite IH. destruct (hkey_mem x seen) eqn:Hm.
    - apply hkey_mem_in in Hm. split; [tauto|].
      intros [H|[<-|H]]; auto.
    - rewrite in_app_iff. simpl. tauto. }
  rewrite H. simpl. tauto.
Qed.

(** The keys of the entries a test keeps are listed in the order of the
    map. *)
Lemma listed_filter (q : hkey * dict -> bool) m :
  NoDup (map fst m) -> listed_in (map fst m) (map fst (filter q m)).
Proof.
  unfold listed_in. induction m as [|[k a] m IH]; intros Hnd; [reflexivity|].
  simpl in Hnd. inversion Hnd as [|? ? Hnot Hnd']; subst.
  assert (Hsub : forall x, In x (map fst (filter q m)) -> In x (map fst m)).
  { intros x Hx. apply in_map_iff in Hx. destruct Hx as (e & <- & He).
    apply filter_In in He. apply in_map. tauto. }
  cbn [filter map fst]. destruct (q (k, a)); cbn [map fst filter].
  - assert (Hk : hkey_mem k (k :: map fst (filter q m)) = true)
      by (apply hkey_mem_in; left; reflexivity).
    rewrite Hk. f_equal. rewrite (IH Hnd') at 1. apply filter_ext_in.
    intros x Hx. unfold hkey_mem. cbn [existsb].
    destruct (hkey_eqb_spec x k) as [->|_]; [contradiction|reflexivity].
  - destruct (hkey_mem k (map fst (filter q m))) eqn:Hk.
    + apply hkey_mem_in in Hk. exfalso. auto.
    + exact (IH Hnd').
Qed.

Lemma new_keys_filtered cm ym :
  (forall k a, In (k, a) ym -> record_key a = Some k) ->
  keys_of (new_of cm ym) =
  map fst (filter (fun e => match kmap_get (fst e) cm with
                            | None => true
                            | Some _ => false
                            end) ym).
Proof.
  induction ym as [|[k a] ym IH]; intros Hk; [reflexivity|].
  rewrite new_of_cons, keys_of_app, IH by (intros; apply Hk; right; assumption).
  cbn [filter fst]. destruct (kmap_get k cm); [reflexivity|].
  rewrite (keys_of_one a k) by (apply Hk; left; reflexivity). reflexivity.
Qed.

Lemma updated_keys_filtered cm ym :
  (forall k a, In (k, a) ym -> record_key a = Some k) ->
  keys_of (map new (updated_of cm ym)) =
  map fst (filter (fun e => match kmap_get (fst e) cm with
                            | None => false
                            | Some current =>
                                negb (String.eqb (compute_assistant_hash (snd e))
                                                 (compute_assistant_hash current))
                            end) ym).
Proof.
  induction ym as [|[k a] ym IH]; intros Hk; [reflexivity|].
  rewrite updated_of_cons, map_app, keys_of_app, IH
    by (intros; apply Hk; right; assumption).
  cbn [filter fst snd]. destruct (kmap_get k cm); [|reflexivity].
  destruct (negb _); [|reflexivity]. cbn [map new].
  rewrite (keys_of_one a k) by (apply Hk; left; reflexivity). reflexivity.
Qed.

Lemma unchanged_keys_filtered cm ym :
  (forall k a, In (k, a) ym -> record_key a = Some k) ->
  keys_of (unchanged_of cm ym) =
  map fst (filter (fun e => match kmap_get (fst e) cm with
                            | None => false
                            | Some current =>
                                String.eqb (compute_assistant_hash (snd e))
                                           (compute_assistant_hash current)
                            end) ym).
Proof.
  induction ym as [|[k a] ym IH]; intros Hk; [reflexivity|].
  rewrite unchanged_of_cons, keys_of_app, IH
    by (intros; apply Hk; right; assumption).
  cbn [filter fst snd]. destruct (kmap_get k cm); [|reflexivity].
  destruct (String.eqb _ _); cbn [negb]; [|reflexivity].
  rewrite (keys_of_one a k) by (apply Hk; left; reflexivity). reflexivity.
Qed.

Lemma deleted_keys_filtered ym cm :
  (forall k a, In (k, a) cm -> record_key a = Some k) ->
  keys_of (deleted_of ym cm) =
  map fst (filter (fun e => negb (kmap_mem (fst e) ym)) cm).
Proof.
  induction cm as [|[k a] cm IH]; intros Hk; [reflexivity|].
  rewrite deleted_of_cons, keys_of_app, IH
    by (intros; apply Hk; right; assumption).
  cbn [filter fst]. destruct (negb _); [|reflexivity].
  rewrite (keys_of_one a k) by (apply Hk; left; reflexivity). reflexivity.
Qed.

(** What a successful diff is made of, with the order and the content of
    the two maps. *)
Lemma detect_changes_maps D C r :
  detect_changes D C = Ok r ->
  exists ym cm,
    kmap_ok ym /\ kmap_ok cm /\
    map fst ym = seen_order (keys_of D) /\
    map fst cm = seen_order (keys_of (filter is_live C)) /\
    (forall k, kmap_get k ym = last_keyed k D) /\
    (forall k, kmap_get k cm = last_keyed k (filter is_live C)) /\
    (forall k a, In (k, a) cm -> In a C /\ is_live a = true) /\
    r = mk_changes (new_of cm ym) (updated_of cm ym) (deleted_of ym cm)
                   (unchanged_of cm ym).
Proof.
  intros H.
  destruct (detect_changes_inv _ _ _ H)
    as (ym & cm & Hy & Hc & Hoky & Hokc & _ & _ & _ & Hsrc & ->).
  exists ym, cm. split; [exact Hoky|]. split; [exact Hokc|].
  split; [exact (loop_keys_order _ _ _ Hy)|].
  split; [exact (loop_keys_order _ _ _ Hc)|].
  split; [intros k; exact (loop_get_last k _ _ _ Hy)|].
  split; [intros k; exact (loop_get_last k _ _ _ Hc)|].
  split; [exact Hsrc|reflexivity].
Qed.

(** On duplicate keys the last record wins: a record of New, Unchanged
    or the new half of an Updated pair is the last declared record with
    its key, and a Deleted record or the old half of an Updated pair is
    the last live current record with its key. *)
Theorem diff_last_record_wins D C r :
  detect_changes D C = Ok r ->
  (forall a, In a (ch_new r) \/ In a (map new (ch_updated r)) \/
             In a (ch_unchanged r) ->
     exists k, record_key a = Some k /\ last_keyed k D = Some a) /\
  (forall a, In a (ch_deleted r) \/ In a (map old (ch_updated r)) ->
     exists k, record_key a = Some k /\
               last_keyed k (filter is_live C) = Some a).
Proof.
  intros H.
  destruct (detect_changes_maps _ _ _ H)
    as (ym & cm & [Hndy Hky] & [Hndc Hkc] & _ & _ & Hly & Hlc & _ & ->).
  cbn [ch_new ch_updated ch_deleted ch_unchanged].
  assert (Hy : forall k a, In (k, a) ym ->
                 exists k, record_key a = Some k /\ last_keyed k D = Some a).
  { intros k a Hin. exists k. split; [eauto|].
    rewrite <- Hly. apply kmap_get_unique; assumption. }
  assert (Hc : forall k a, In (k, a) cm ->
                 exists k, record_key a = Some k /\
                           last_keyed k (filter is_live C) = Some a).
  { intros k a Hin. exists k. split; [eauto|].
    rewrite <- Hlc. apply kmap_get_unique; assumption. }
  split.
  - intros a [Ha|[Ha|Ha]].
    + apply in_new_of in Ha. destruct Ha as (k & Ha & _). eauto.
    + apply in_map_iff in Ha. destruct Ha as (u & <- & Hu).
      apply in_updated_of in Hu. destruct Hu as (k & Hu & _). eauto.
    + apply in_unchanged_of in Ha. destruct Ha as (k & cur & Ha & _). eauto.
  - intros a [Ha|Ha].
    + apply in_deleted_of in Ha. destruct Ha as (k & Ha & _). eauto.
    + apply in_map_iff in Ha. destruct Ha as (u & <- & Hu).
      apply in_updated_of in Hu. destruct Hu as (k & _ & Hg & _).
      apply kmap_get_in in Hg. eauto.
Qed.

Lemma diff_last_record_wins_witness :
  detect_changes [unversioned_a; declared_a] []
  = Ok (mk_changes [declared_a] [] [] []) /\
  exists k, record_key declared_a = Some k /\
            last_keyed k [unversioned_a; declared_a] = Some declared_a.
Proof.
  assert (H : detect_changes [unversioned_a; declared_a] []
              = Ok (mk_changes [declared_a] [] [] []))
    by (vm_compute; reflexivity).
  split; [exact H|].
  apply (proj1 (diff_last_record_wins _ _ _ H)). left. left. reflexivity.
Defined.

(** Every class lists its records in declaration order: the keys of New,
    of Updated and of Unchanged follow the order in which the declared
    keys first occur, and the keys of Deleted follow the order in which
    the keys of the live current records first occur. *)
Theorem diff_keeps_declaration_order D C r :
  detect_changes D C = Ok r ->
  listed_in (seen_order (keys_of D)) (keys_of (ch_new r)) /\
  listed_in (seen_order (keys_of D)) (keys_of (map new (ch_updated r))) /\
  listed_in (seen_order (keys_of D)) (keys_of (ch_unchanged r)) /\
  listed_in (seen_order (keys_of (filter is_live C))) (keys_of (ch_deleted r)).
Proof.
  intros H.
  destruct (detect_changes_maps _ _ _ H)
    as (ym & cm & [Hndy Hky] & [Hndc Hkc] & <- & <- & _ & _ & _ & ->).
  cbn [ch_new ch_updated ch_deleted ch_unchanged].
  rewrite (new_keys_filtered cm ym Hky), (updated_keys_filtered cm ym Hky),
    (unchanged_keys_filtered cm ym Hky), (deleted_keys_filtered ym cm Hkc).
  repeat split; apply listed_filter; assumption.
Qed.

Lemma diff_keeps_declaration_order_witness :
  detect_changes [declared_n; declared_a; declared_n] []
  = Ok (mk_changes [declared_n; declared_a] [] [] []) /\
  listed_in (seen_order (keys_of [declared_n; declared_a; declared_n]))
            (keys_of [declared_n; declared_a]).
Proof.
  assert (H : detect_changes [declared_n; declared_a; declared_n] []
              = Ok (mk_changes [declared_n; declared_a] [] [] []))
    by (vm_compute; reflexivity).
  split; [exact H|].
  exact (proj1 (diff_keeps_declaration_order _ _ _ H)).
Defined.

(** ** One side empty, and a collection against itself *)

Lemma filter_none {A : Type} (f : A -> bool) l :
  (forall x, In x l -> f x = false) -> filter f l = [].
Proof.
  induction l as [|x l IH]; intros H; [reflexivity|].
  simpl. rewrite (H x (or_introl eq_refl)). apply IH.
  intros y Hy. apply H. right. exact Hy.
Qed.

Lemma filter_all {A : Type} (f : A -> bool) l :
  (forall x, In x l -> f x = true) -> filter f l = l.
Proof.
  induction l as [|x l IH]; intros H; [reflexivity|].
  simpl. rewrite (H x (or_introl eq_refl)). f_equal. apply IH.
  intros y Hy. apply H. right. exact Hy.
Qed.

Lemma classes_without_current ym :
  new_of [] ym = map snd ym /\ updated_of [] ym = [] /\ unchanged_of [] ym = [].
Proof.
  induction ym as [|[k a] ym (H1 & H2 & H3)]; [repeat split|].
  rewrite new_of_cons, updated_of_cons, unchanged_of_cons, H1, H2, H3.
  repeat split.
Qed.

Lemma deleted_without_declared cm : deleted_of [] cm = map snd cm.
Proof.
  induction cm as [|[k a] cm IH]; [reflexivity|].
  rewrite deleted_of_cons, IH. reflexivity.
Qed.

Lemma all_new_without_live D C r :
  (forall c, In c C -> is_live c = false) ->
  detect_changes D C = Ok r ->
  ch_updated r = [] /\ ch_deleted r = [] /\ ch_unchanged r = [] /\
  keys_of (ch_new r) = seen_order (keys_of D) /\
  List.length (ch_new r) = List.length (seen_order (keys_of D)).
Proof.
  intros Hdead H.
  destruct (detect_changes_maps _ _ _ H)
    as (ym & cm & [_ Hky] & _ & Hoy & Hoc & _ & _ & _ & ->).
  rewrite (filter_none _ _ Hdead) in Hoc. simpl in Hoc.
  destruct cm; [|discriminate].
  destruct (classes_without_current ym) as (H1 & H2 & H3).
  cbn [ch_new ch_updated ch_deleted ch_unchanged].
  rewrite H1, H2, H3, <- Hoy, (keys_of_entries ym Hky), !length_map.
  repeat split.
Qed.

(** With no live current record (an empty store, or a read that fell
    back to the empty list) nothing is Updated, Deleted or Unchanged, and
    New holds one record for each declared key, in declaration order. *)
Theorem diff_against_no_live_record D C r :
  (forall c, In c C -> is_live c = false) ->
  detect_changes D C = Ok r ->
  ch_updated r = [] /\ ch_deleted r = [] /\ ch_unchanged r = [] /\
  keys_of (ch_new r) = seen_order (keys_of D) /\
  List.length (ch_new r) = List.length (seen_order (keys_of D)).
Proof. apply all_new_without_live. Qed.

Lemma diff_against_no_live_record_witness :
  keys_of [declared_n; declared_a]
  = seen_order (keys_of [declared_n; declared_a; declared_n]).
Proof.
  assert (H : detect_changes [declared_n; declared_a; declared_n]
                [[("name", VStr "Z"); ("isActive", VBool false)]]
              = Ok (mk_changes [declared_n; declared_a] [] [] []))
    by (vm_compute; reflexivity).
  refine (proj1 (proj2 (proj2 (proj2
    (diff_against_no_live_record _ _ _ _ H))))).
  intros c [<-|[]]. reflexivity.
Defined.

(** An empty declared list puts every live current record that has a key
    in Deleted (one record per key, in the order of the store) and
    nothing in the other classes. *)
Theorem diff_of_empty_declaration_deletes_all C r :
  detect_changes [] C = Ok r ->
  ch_new r = [] /\ ch_updated r = [] /\ ch_unchanged r = [] /\
  keys_of (ch_deleted r) = seen_order (keys_of (filter is_live C)) /\
  (forall c k, In c C -> is_live c = true -> record_key c = Some k ->
               In k (keys_of (ch_deleted r))).
Proof.
  intros H.
  destruct (detect_changes_maps _ _ _ H)
    as (ym & cm & _ & [_ Hkc] & Hoy & Hoc & _ & _ & _ & ->).
  simpl in Hoy. destruct ym; [|discriminate].
  cbn [ch_new ch_updated ch_deleted ch_unchanged].
  rewrite deleted_without_declared, (keys_of_entries cm Hkc), <- Hoc.
  repeat split. intros c k Hc Hl Hk. rewrite Hoc. apply in_seen_order.
  apply in_keys_of. exists c. split; [|exact Hk]. apply filter_In. auto.
Qed.

Lemma diff_of_empty_declaration_deletes_all_witness :
  keys_of [persisted_a] = seen_order (keys_of (filter is_live [persisted_a])).
Proof.
  assert (H : detect_changes [] [persisted_a]
              = Ok (mk_changes [] [] [persisted_a] []))
    by (vm_compute; reflexivity).
  exact (proj1 (proj2 (proj2 (proj2
    (diff_of_empty_declaration_deletes_all _ _ H))))).
Defined.

(** A collection of live records diffed against itself is Unchanged
    throughout. *)
Theorem diff_against_itself_is_unchanged D r :
  (forall a, In a D -> is_live a = true) ->
  detect_changes D D = Ok r ->
  ch_new r = [] /\ ch_updated r = [] /\ ch_deleted r = [] /\
  keys_of (ch_unchanged r) = seen_order (keys_of D).
Proof.
  intros Hlive H. rewrite detect_changes_eq, (filter_all _ _ Hlive) in H.
  destruct (yaml_map_loop D []) as [ym|e] eqn:Hy; [|discriminate].
  cbn [rbind] in H. injection H as <-.
  destruct (yaml_map_loop_inv _ _ _ Hy kmap_ok_nil) as ([Hnd Hk] & _ & _).
  cbn [ch_new ch_updated ch_deleted ch_unchanged].
  assert (Hall : forall m, (forall k a, In (k, a) m -> In (k, a) ym) ->
            new_of ym m = [] /\ updated_of ym m = [] /\
            unchanged_of ym m = map snd m /\ deleted_of ym m = []).
  { induction m as [|[k a] m IH]; intros Hm; [repeat split|].
    destruct IH as (H1 & H2 & H3 & H4); [intros; apply Hm; right; assumption|].
    rewrite new_of_cons, updated_of_cons, unchanged_of_cons, deleted_of_cons,
      H1, H2, H3, H4.
    pose proof (Hm k a (or_introl eq_refl)) as Hin.
    unfold kmap_mem. rewrite (kmap_get_unique _ _ _ Hnd Hin), String.eqb_refl.
    repeat split. }
  destruct (Hall ym (fun k a H => H)) as (H1 & H2 & H3 & H4).
  rewrite H1, H2, H3, H4, (keys_of_entries ym Hk).
  repeat split. exact (loop_keys_order _ _ _ Hy).
Qed.

Lemma diff_against_itself_is_unchanged_witness :
  detect_changes [persisted_a] [persisted_a]
  = Ok (mk_changes [] [] [] [persisted_a]) /\
  keys_of [persisted_a] = seen_order (keys_of [persisted_a]).
Proof.
  assert (H : detect_changes [persisted_a] [persisted_a]
              = Ok (mk_changes [] [] [] [persisted_a]))
    by (vm_compute; reflexivity).
  split; [exact H|].
  refine (proj2 (proj2 (proj2 (diff_against_itself_is_unchanged _ _ _ H)))).
  intros a [<-|[]]. reflexivity.
Defined.

(** ** What the classes say about the fields *)

Lemma same_field_b_spec k r1 r2 : same_field_b k r1 r2 = true <-> same_field k r1 r2.
Proof.
  unfold same_field_b, same_field, same_value.
  destruct (lookup k r1), (lookup k r2); try (split; [discriminate|contradiction]).
  - apply value_eqb_eq.
  - tauto.
Qed.

Lemma forallb_false_ex {A : Type} (f : A -> bool) l :
  forallb f l = false -> exists x, In x l /\ f x = false.
Proof.
  induction l as [|x l IH]; simpl; [discriminate|].
  destruct (f x) eqn:Hx.
  - intros H. destruct (IH H) as (y & Hy & Hf). exists y. auto.
  - intros _. exists x. auto.
Qed.

Lemma some_tracked_field_differs r1 r2 :
  compute_assistant_hash r1 <> compute_assistant_hash r2 ->
  exists k, In k key_fields /\ ~ same_field k r1 r2.
Proof.
  intros Hne.
  destruct (forallb (fun k => same_field_b k r1 r2) key_fields) eqn:H.
  - exfalso. apply Hne. apply fingerprint_same_fields. intros k Hk.
    apply same_field_b_spec. rewrite forallb_forall in H. apply H. exact Hk.
  - apply forallb_false_ex in H. destruct H as (k & Hk & Hf).
    exists k. split; [exact Hk|]. intros Hs. apply same_field_b_spec in Hs.
    congruence.
Qed.

(** The classes read field by field.  The two halves of an Updated pair
    have the same key and differ in at least one tracked field; an
    Unchanged record agrees on every tracked field with a live current
    record of its key; no live current record has the key of a New
    record, and no declared record has the key of a Deleted one. *)
Theorem diff_classifies_by_tracked_fields D C r :
  detect_changes D C = Ok r ->
  (forall u, In u (ch_updated r) ->
     record_key (old u) = record_key (new u) /\
     exists k, In k key_fields /\ ~ same_field k (new u) (old u)) /\
  (forall a, In a (ch_unchanged r) ->
     exists c, In c C /\ is_live c = true /\ record_key c = record_key a /\
               forall k, In k key_fields -> same_field k a c) /\
  (forall a c, In a (ch_new r) -> In c C -> is_live c = true ->
               record_key c <> record_key a) /\
  (forall a d, In a (ch_deleted r) -> In d D -> record_key d <> record_key a).
Proof.
  intros H.
  destruct (detect_changes_inv _ _ _ H)
    as (ym & cm & _ & _ & [_ Hky] & [_ Hkc] & Hkeysy & Hkeysc & _ & Hsrc & ->).
  cbn [ch_new ch_updated ch_deleted ch_unchanged].
  split.
  { intros u Hu. apply in_updated_of in Hu. destruct Hu as (k & Hn & Hg & Hne).
    apply kmap_get_in in Hg. split.
    - rewrite (Hky _ _ Hn), (Hkc _ _ Hg). reflexivity.
    - apply some_tracked_field_differs. exact Hne. }
  split.
  { intros a Ha. apply in_unchanged_of in Ha.
    destruct Ha as (k & cur & Hn & Hg & He). apply kmap_get_in in Hg.
    exists cur. destruct (Hsrc _ _ Hg) as [Hc Hl].
    split; [exact Hc|]. split; [exact Hl|].
    split; [rewrite (Hky _ _ Hn), (Hkc _ _ Hg); reflexivity|].
    apply fingerprint_same_fields. exact He. }
  split.
  { intros a c Ha Hc Hl Heq. apply in_new_of in Ha.
    destruct Ha as (k & Hn & Hnone). rewrite (Hky _ _ Hn) in Heq.
    apply kmap_get_none in Hnone. apply Hnone, Hkeysc, in_keys_of.
    exists c. split; [apply filter_In; auto|exact Heq]. }
  intros a d Ha Hd Heq. apply in_deleted_of in Ha.
  destruct Ha as (k & Hin & Hm). rewrite (Hkc _ _ Hin) in Heq.
  assert (Hk : kmap_mem k ym = true).
  { apply kmap_mem_in, Hkeysy, in_keys_of. exists d. auto. }
  congruence.
Qed.

Lemma diff_classifies_by_tracked_fields_witness :
  exists k, In k key_fields /\ ~ same_field k declared_a persisted_a.
Proof.
  assert (H : detect_changes [declared_a] [persisted_a] = Ok versioned_update)
    by (vm_compute; reflexivity).
  destruct (proj1 (diff_classifies_by_tracked_fields _ _ _ H)
              (mk_update persisted_a declared_a) (or_introl eq_refl))
    as [_ Hk].
  exact Hk.
Defined.

(** ** When the diff raises *)





(** ** More on the planner *)



Lemma new_ops_origin E l : forall n op,
  In op (new_ops E l n) ->
  exists d m,
    In d l /\
    op = insert_op (dict_display d
                      [("isActive", VBool true);
                       ("dateAdded", VStr (utcnow_isoformat E m));
                       ("version", VInt 1)]).
Proof.
  induction l as [|a l IH]; intros n op Hin; [contradiction|].
  destruct Hin as [<-|Hin].
  - exists a, n. split; [left|]; reflexivity.
  - destruct (IH _ _ Hin) as (d & m & Hd & ->). exists d, m.
    split; [right; exact Hd|reflexivity].
Qed.

Lemma updated_ops_origin E l : forall n o op,
  updated_ops E l n = Ok o -> In op o ->
  exists u m version,
    In u l /\
    (op = deactivate_op E (old u) m \/
     op = insert_op (successor_data E (old u) (new u) version m)).
Proof.
  induction l as [|u l IH]; intros n o op H Hin; simpl in H.
  - injection H as <-. contradiction.
  - destruct (py_add_one _) as [ver|e]; simpl in H; [|discriminate].
    destruct (updated_ops E l (S (S n))) as [tl|e] eqn:Ht; simpl in H;
      [|discriminate].
    injection H as <-. destruct Hin as [<-|[<-|Hin]].
    + exists u, n, ver. split; [left; reflexivity|left; reflexivity].
    + exists u, (S n), ver. split; [left; reflexivity|right; reflexivity].
    + destruct (IH _ _ _ Ht Hin) as (u' & m & v & Hu & Hop).
      exists u', m, v. split; [right; exact Hu|exact Hop].
Qed.

Lemma deleted_ops_origin E l : forall n op,
  In op (deleted_ops E l n) ->
  exists a m,
    In a l /\
    op = update_op (get "id" a)
           [("dateDeleted", VStr (utcnow_isoformat E m));
            ("isActive", VBool false)].
Proof.
  induction l as [|b l IH]; intros n op Hin; [contradiction|].
  destruct Hin as [<-|Hin].
  - exists b, n. split; [left|]; reflexivity.
  - destruct (IH _ _ Hin) as (a & m & Ha & ->). exists a, m.
    split; [right; exact Ha|reflexivity].
Qed.

Lemma new_ops_length E l : forall n, List.length (new_ops E l n) = List.length l.
Proof. induction l as [|a l IH]; intros n; simpl; [|rewrite IH]; reflexivity. Qed.

Lemma deleted_ops_length E l : forall n,
  List.length (deleted_ops E l n) = List.length l.
Proof. induction l as [|a l IH]; intros n; simpl; [|rewrite IH]; reflexivity. Qed.

Lemma updated_ops_length E l : forall n o,
  updated_ops E l n = Ok o -> List.length o = 2 * List.length l.
Proof.
  induction l as [|u l IH]; intros n o H; simpl in H.
  - injection H as <-. reflexivity.
  - destruct (py_add_one _) as [ver|e]; simpl in H; [|discriminate].
    destruct (updated_ops E l (S (S n))) as [tl|e] eqn:Ht; simpl in H;
      [|discriminate].
    injection H as <-. simpl. rewrite (IH _ _ Ht). lia.
Qed.





(** A plan holds one operation for each New record, two for each Updated
    pair and one for each Deleted record, none for Unchanged; it reads
    the clock once for each operation and leaves the trace alone. *)
Theorem plan_size E c w :
  addable_versions c ->
  exists ops w',
    plan E c w = (Ok ops, w') /\
    List.length ops =
      List.length (ch_new c) + 2 * List.length (ch_updated c) +
      List.length (ch_deleted c) /\
    clock w' = clock w + List.length ops /\
    trace w' = trace w.
Proof.
  intros Hadd. destruct (plan_total E c w Hadd) as (ops & w' & Hp).
  exists ops, w'. split; [exact Hp|].
  apply plan_inv in Hp. destruct Hp as (o & Ho & -> & Ht & Hc).
  rewrite !length_app, new_ops_length, deleted_ops_length,
    (updated_ops_length _ _ _ _ Ho), Hc.
  repeat split; [lia|lia|exact Ht].
Qed.

Lemma plan_size_witness :
  exists ops w', plan quiet_env versioned_update initial_world = (Ok ops, w').
Proof.
  destruct (plan_size quiet_env versioned_update initial_world)
    as (ops & w' & Hp & _).
  - intros u [<-|[]]. eexists. reflexivity.
  - exists ops, w'. exact Hp.
Defined.

Lemma plan_op_origin E c w ops w' op :
  plan E c w = (Ok ops, w') -> In op ops ->
  (exists d data,
     In d (ch_new c ++ map new (ch_updated c)) /\ inserted_from d data /\
     op = insert_op data) \/
  (exists a data,
     In a (map old (ch_updated c) ++ ch_deleted c) /\
     lookup "isActive" data = Some (VBool false) /\
     op = update_op (get "id" a) data).
Proof.
  intros Hp Hin. apply plan_inv in Hp. destruct Hp as (o & Ho & -> & _).
  rewrite !in_app_iff in Hin. destruct Hin as [Hin|[Hin|Hin]].
  - apply new_ops_origin in Hin. destruct Hin as (d & m & Hd & ->).
    left. eexists d, _. split; [apply in_app_iff; left; exact Hd|].
    split; [apply new_data_inserted|reflexivity].
  - destruct (updated_ops_origin _ _ _ _ _ Ho Hin) as (u & m & ver & Hu & [->| ->]).
    + right. eexists (old u), _.
      split; [apply in_app_iff; left; apply in_map; exact Hu|].
      split; [|reflexivity]. reflexivity.
    + left. eexists (new u), _.
      split; [apply in_app_iff; right; apply in_map; exact Hu|].
      split; [apply successor_data_inserted|reflexivity].
  - apply deleted_ops_origin in Hin. destruct Hin as (a & m & Ha & ->).
    right. eexists a, _. split; [apply in_app_iff; right; exact Ha|].
    split; [|reflexivity]. reflexivity.
Qed.

(** What the planner inserts for a declared record has the fingerprint
    and the identity key of that record: the bookkeeping fields it adds
    are invisible to the diff. *)
Theorem planned_insert_keeps_fingerprint_and_key E c w :
  addable_versions c ->
  exists ops w',
    plan E c w = (Ok ops, w') /\
    forall data, In (insert_op data) ops ->
      exists d,
        (In d (ch_new c) \/ In d (map new (ch_updated c))) /\
        compute_assistant_hash data = compute_assistant_hash d /\
        identity_key data = identity_key d /\
        record_key data = record_key d.
Proof.
  intros Hadd. destruct (plan_total E c w Hadd) as (ops & w' & Hp).
  exists ops, w'. split; [exact Hp|]. intros data Hin.
  destruct (plan_op_origin _ _ _ _ _ _ Hp Hin)
    as [(d & data' & Hd & Hfrom & He)|(a & data' & _ & _ & He)].
  - injection He as ->. exists d. split; [apply in_app_iff; exact Hd|].
    split; [apply inserted_hash; exact Hfrom|].
    split; [apply inserted_identity|apply inserted_key]; exact Hfrom.
  - discriminate He.
Qed.

Lemma planned_insert_keeps_fingerprint_and_key_witness :
  exists ops w', plan quiet_env versioned_update initial_world = (Ok ops, w').
Proof.
  destruct (planned_insert_keeps_fingerprint_and_key quiet_env versioned_update
              initial_world) as (ops & w' & Hp & _).
  - intros u [<-|[]]. eexists. reflexivity.
  - exists ops, w'. exact Hp.
Defined.

(** The plan of a diff writes declared records only and touches live
    records only: each operation is the insert of a declared record, made
    active, or an update that sets isActive false on the id of a live
    current record that has an identity key. *)
Theorem plan_of_diff_touches_declared_and_live_only E D C c w :
  detect_changes D C = Ok c ->
  addable_versions c ->
  exists ops w',
    plan E c w = (Ok ops, w') /\
    forall op, In op ops ->
      (exists d data, op = insert_op data /\ In d D /\ inserted_from d data) \/
      (exists a data,
         op = update_op (get "id" a) data /\ In a C /\ is_live a = true /\
         record_key a <> None /\ lookup "isActive" data = Some (VBool false)).
Proof.
  intros Hdiff Hadd. destruct (plan_total E c w Hadd) as (ops & w' & Hp).
  exists ops, w'. split; [exact Hp|]. intros op Hin.
  destruct (detect_changes_inv _ _ _ Hdiff)
    as (ym & cm & _ & _ & _ & [_ Hkc] & _ & _ & Hsrcy & Hsrcc & ->).
  cbn [ch_new ch_updated ch_deleted ch_unchanged] in *.
  destruct (plan_op_origin _ _ _ _ _ _ Hp Hin)
    as [(d & data & Hd & Hfrom & ->)|(a & data & Ha & Hfalse & ->)];
    cbn [ch_new ch_updated ch_deleted ch_unchanged] in *.
  - left. exists d, data. split; [reflexivity|]. split; [|exact Hfrom].
    rewrite in_app_iff, in_map_iff in Hd. destruct Hd as [Hd|(u & <- & Hu)].
    + apply in_new_of in Hd. destruct Hd as (k & Hd & _). eauto.
    + apply in_updated_of in Hu. destruct Hu as (k & Hu & _). eauto.
  - right. exists a, data. split; [reflexivity|].
    assert (Hk : exists k, In (k, a) cm).
    { rewrite in_app_iff, in_map_iff in Ha. destruct Ha as [(u & <- & Hu)|Ha].
      - apply in_updated_of in Hu. destruct Hu as (k & _ & Hg & _).
        apply kmap_get_in in Hg. eauto.
      - apply in_deleted_of in Ha. destruct Ha as (k & Ha & _). eauto. }
    destruct Hk as [k Hk]. destruct (Hsrcc _ _ Hk) as [HaC Hl].
    split; [exact HaC|]. split; [exact Hl|].
    split; [rewrite (Hkc _ _ Hk); discriminate|exact Hfalse].
Qed.

Lemma plan_of_diff_touches_declared_and_live_only_witness :
  exists ops w', plan quiet_env versioned_update initial_world = (Ok ops, w').
Proof.
  destruct (plan_of_diff_touches_declared_and_live_only quiet_env
              [declared_a] [persisted_a] versioned_update initial_world)
    as (ops & w' & Hp & _).
  - vm_compute. reflexivity.
  - intros u [<-|[]]. eexists. reflexivity.
  - exists ops, w'. exact Hp.
Defined.

Lemma py_add_one_raises x e : py_add_one x = Raise e -> e = TypeError.
Proof. destruct x; simpl; congruence. Qed.

Lemma plan_updated_raises E l : forall ops w u,
  In u l ->
  py_add_one (get_default "version" (VInt 0) (old u)) = Raise TypeError ->
  exists w', plan_updated E l ops w = (Raise TypeError, w').
Proof.
  induction l as [|u0 l IH]; intros ops w u Hin Hbad; [contradiction|].
  simpl. unfold bind, utcnow, lift. simpl.
  destruct (py_add_one (get_default "version" (VInt 0) (old u0))) as [ver|e] eqn:Hv.
  - destruct Hin as [->|Hin]; [congruence|]. eapply IH; eassumption.
  - rewrite (py_add_one_raises _ _ Hv). eauto.
Qed.

(** An old record whose version admits no addition (a string, a list, a
    mapping or null) makes the sync raise a TypeError while the plan is
    built: nothing is sent to the write endpoint and no recovery file is
    written. *)
Theorem unaddable_version_aborts_before_any_request E self c w u :
  In u (ch_updated c) ->
  py_add_one (get_default "version" (VInt 0) (old u)) = Raise TypeError ->
  exists w',
    sync_to_cloudflare E self c w = (Raise TypeError, w') /\
    trace w' = trace w.
Proof.
  intros Hin Hbad. unfold sync_to_cloudflare, bind.
  destruct (plan E c w) as [[ops|e] w'] eqn:Hp.
  - exfalso. unfold plan, bind in Hp. rewrite plan_new_eq in Hp.
    destruct (plan_updated_raises E _ (new_ops E (ch_new c) (clock w))
                (mk_world (List.length (ch_new c) + clock w) (trace w)) u Hin Hbad)
      as [w1 Hr].
    simpl in Hp. rewrite Hr in Hp. discriminate.
  - exists w'. split; [|exact (plan_trace _ _ _ _ _ Hp)].
    unfold plan, bind in Hp. rewrite plan_new_eq in Hp.
    destruct (plan_updated_raises E _ (new_ops E (ch_new c) (clock w))
                (mk_world (List.length (ch_new c) + clock w) (trace w)) u Hin Hbad)
      as [w1 Hr].
    simpl in Hp. rewrite Hr in Hp.
    injection Hp as <- <-. reflexivity.
Qed.

Lemma unaddable_version_aborts_before_any_request_witness :
  exists w',
    sync_to_cloudflare quiet_env (mk_manager "https://worker.example")
      text_version_update initial_world = (Raise TypeError, w') /\
    trace w' = [].
Proof.
  apply (unaddable_version_aborts_before_any_request quiet_env
           (mk_manager "https://worker.example") text_version_update initial_world
           (mk_update (unversioned_a ++ [("version", VStr "1")]) declared_a)).
  - left. reflexivity.
  - reflexivity.
Defined.

(** ** The executor, beyond the request failure *)

Lemma submit_outcome E self ops w :
  ops <> [] ->
  submit E self ops w =
  let payload := sync_payload E ops (clock w) in
  let w1 := mk_world (S (clock w)) (trace w ++ [EvPost (sync_url self) payload]) in
  match session_post E (sync_url self) payload with
  | Ok _ => (Ok true, w1)
  | Raise RequestException =>
      (Ok false,
       mk_world (S (clock w))
         (trace w ++ [EvPost (sync_url self) payload;
                      EvWrite failed_sync_file payload]))
  | Raise e => (Raise e, w1)
  end.
Proof.
  intros Hne. destruct ops as [|op ops]; [congruence|].
  unfold submit, bind, utcnow, try_except, emit, lift, ret. simpl.
  fold (sync_url self). fold (sync_payload E (op :: ops) (clock w)).
  destruct (session_post E _ _) as [ack|[]]; simpl; try reflexivity.
  rewrite <- app_assoc. reflexivity.
Qed.

(** A submission the write endpoint accepts returns True after exactly
    one request, with nothing written to the recovery file.  A failure
    that is no request exception is not handled: it leaves the executor
    as it is, after the one request, and no recovery file is written. *)
Theorem submission_without_request_failure E self ops w :
  ops <> [] ->
  let payload :=
    VDict [("operations", VList ops);
           ("source", VStr "awesome-assistants-sync");
           ("timestamp", VStr (utcnow_isoformat E (clock w)))] in
  let url := (cloudflare_endpoint self ++ "/sync")%string in
  let posted := mk_world (S (clock w)) (trace w ++ [EvPost url payload]) in
  (forall ack, session_post E url payload = Ok ack ->
     submit E self ops w = (Ok true, posted)) /\
  (forall e, session_post E url payload = Raise e -> e <> RequestException ->
     submit E self ops w = (Raise e, posted)).
Proof.
  intros Hne. cbv zeta. rewrite (submit_outcome _ _ _ _ Hne).
  cbv zeta. unfold sync_url, sync_payload. split.
  - intros ack H. rewrite H. reflexivity.
  - intros e H He. rewrite H. destruct e; [reflexivity|congruence|reflexivity].
Qed.

Lemma submission_without_request_failure_witness :
  fst (submit first_sync_env (mk_manager "https://worker.example")
         [insert_op declared_a] initial_world) = Ok true.
Proof.
  assert (Hne : [insert_op declared_a] <> []) by discriminate.
  destruct (submission_without_request_failure first_sync_env
              (mk_manager "https://worker.example") [insert_op declared_a]
              initial_world Hne) as [H _].
  rewrite (H _ eq_refl). reflexivity.
Defined.

(** ** Reading the declared file and the store *)

(** The read of the store issues exactly one GET, on the endpoint itself.
    A request exception is absorbed: the result is then the empty list,
    and the read never raises a request exception; any other exception
    goes through. *)
Theorem fetch_issues_one_get_and_absorbs_request_failure E self w :
  exists r,
    fetch_current_assistants E self w =
    (r, mk_world (clock w) (trace w ++ [EvGet (cloudflare_endpoint self)])) /\
    r <> Raise RequestException /\
    (session_get E (cloudflare_endpoint self) = Raise RequestException ->
     r = Ok (VList [])) /\
    (forall e, session_get E (cloudflare_endpoint self) = Raise e ->
               e <> RequestException -> r = Raise e).
Proof.
  unfold fetch_current_assistants, try_except, bind, emit, lift, ret. simpl.
  destruct (session_get E (cloudflare_endpoint self)) as [data|e]; simpl.
  - destruct (py_len_check _) as [[]|e] eqn:Hl; simpl.
    + eexists. split; [reflexivity|]. repeat split; discriminate.
    + assert (e = TypeError).
      { destruct data as [| | | | |d]; simpl in Hl; try congruence.
        destruct (get_default "assistants" (VList []) d); simpl in Hl; congruence. }
      subst e. simpl. eexists. split; [reflexivity|]. repeat split; discriminate.
  - destruct e; simpl; eexists; (split; [reflexivity|]);
      repeat split; try discriminate; try congruence.
Qed.

(** What the read makes of a response: the assistants field of a mapping
    (the empty list when it has none), or the response itself when it is
    no mapping; a result without a length (null, a boolean, a number)
    raises a TypeError. *)
Theorem fetch_reads_assistants_field_or_bare_list E self w :
  let data := session_get E (cloudflare_endpoint self) in
  let r := fst (fetch_current_assistants E self w) in
  (forall d, data = Ok (VDict d) -> lookup "assistants" d = None ->
             r = Ok (VList [])) /\
  (forall d l, data = Ok (VDict d) -> lookup "assistants" d = Some (VList l) ->
               r = Ok (VList l)) /\
  (forall l, data = Ok (VList l) -> r = Ok (VList l)) /\
  (forall d, data = Ok (VDict d) -> lookup "assistants" d = Some VNull ->
             r = Raise TypeError) /\
  (data = Ok VNull -> r = Raise TypeError).
Proof.
  intros data r. subst data r.
  unfold fetch_current_assistants, try_except, bind, emit, lift, ret,
    get_default. simpl.
  repeat split.
  - intros d -> ->. reflexivity.
  - intros d l -> ->. reflexivity.
  - intros l ->. reflexivity.
  - intros d -> ->. reflexivity.
  - intros ->. reflexivity.
Qed.

(** Loading the declared file touches neither the network nor the clock.
    It returns the assistants field of the document, the empty list when
    the document has none; a document that is no mapping (an empty file
    loads as null) raises, and so does a null assistants field. *)
Theorem load_reads_assistants_field E file w :
  let doc := yaml_safe_load E file in
  let r := fst (load_yaml_assistants E file w) in
  snd (load_yaml_assistants E file w) = w /\
  (forall e, doc = Raise e -> r = Raise e) /\
  (forall d, doc = Ok (VDict d) -> lookup "assistants" d = None ->
             r = Ok (VList [])) /\
  (forall d l, doc = Ok (VDict d) -> lookup "assistants" d = Some (VList l) ->
               r = Ok (VList l)) /\
  (doc = Ok VNull -> r = Raise OtherException) /\
  (forall l, doc = Ok (VList l) -> r = Raise OtherException) /\
  (forall d, doc = Ok (VDict d) -> lookup "assistants" d = Some VNull ->
             r = Raise TypeError).
Proof.
  intros doc r. subst doc r.
  unfold load_yaml_assistants, bind, lift, ret, raise, get_default.
  split.
  { destruct (yaml_safe_load E file) as [[| | | | |d]|e]; simpl; try reflexivity.
    destruct (py_len_check _); reflexivity. }
  repeat split.
  - intros e ->. reflexivity.
  - intros d -> ->. reflexivity.
  - intros d l -> ->. reflexivity.
  - intros ->. reflexivity.
  - intros l ->. reflexivity.
  - intros d -> ->. reflexivity.
Qed.

(** ** A whole run *)

Lemma load_world E file w :
  exists r, load_yaml_assistants E file w = (r, w).
Proof.
  unfold load_yaml_assistants, bind, lift, ret, raise.
  destruct (yaml_safe_load E file) as [[| | | | |d]|e]; simpl; eauto.
  destruct (py_len_check _); eauto.
Qed.

Lemma fetch_world E self w :
  exists r,
    fetch_current_assistants E self w =
    (r, mk_world (clock w) (trace w ++ [EvGet (cloudflare_endpoint self)])).
Proof.
  unfold fetch_current_assistants, try_except, bind, emit, lift, ret. simpl.
  destruct (session_get E (cloudflare_endpoint self)) as [data|e]; simpl.
  - destruct (py_len_check _) as [[]|[]]; simpl; eauto.
  - destruct e; simpl; eauto.
Qed.

Lemma fetch_after_request_failure E self w :
  session_get E (cloudflare_endpoint self) = Raise RequestException ->
  fetch_current_assistants E self w =
  (Ok (VList []),
   mk_world (clock w) (trace w ++ [EvGet (cloudflare_endpoint self)])).
Proof.
  intros H.
  unfold fetch_current_assistants, try_except, bind, emit, lift, ret. simpl.
  rewrite H. reflexivity.
Qed.

(** What [sync_to_cloudflare] adds to the trace. *)
Lemma sync_trace E self c w :
  exists r w',
    sync_to_cloudflare E self c w = (r, w') /\
    (trace w' = trace w \/
     (exists p, trace w' = trace w ++ [EvPost (sync_url self) p]) \/
     (exists p, trace w' = trace w ++ [EvPost (sync_url self) p;
                                       EvWrite failed_sync_file p] /\
                r = Ok false)).
Proof.
  unfold sync_to_cloudflare, bind.
  destruct (plan E c w) as [[ops|e] w1] eqn:Hp;
    pose proof (plan_trace _ _ _ _ _ Hp) as Ht.
  - destruct ops as [|op ops].
    + exists (Ok true), w1. split; [reflexivity|]. left. exact Ht.
    + assert (Hne : op :: ops <> []) by discriminate.
      rewrite (submit_outcome _ _ _ _ Hne). cbv zeta. rewrite Ht.
      destruct (session_post E _ _) as [ack|[]]; do 2 eexists;
        (split; [reflexivity|]); simpl; eauto.
  - exists (Raise e), w1. split; [reflexivity|]. left. exact Ht.
Qed.

(** [run_sync] never raises, and what it sends is ordered: nothing at
    all when loading the declared file fails (the result is then False);
    otherwise one GET, then at most one POST, then at most one write of
    the recovery file, with the payload of the POST and the result
    False.  So a run that returns True has written no recovery file. *)
Theorem run_sync_never_raises_and_orders_requests E self file w :
  let get := EvGet (cloudflare_endpoint self) in
  exists b w',
    run_sync E self file w = (Ok b, w') /\
    (trace w' = trace w /\ b = false \/
     trace w' = trace w ++ [get] \/
     (exists p, trace w' = trace w ++ [get; EvPost (sync_url self) p]) \/
     (exists p, trace w' = trace w ++ [get; EvPost (sync_url self) p;
                                       EvWrite failed_sync_file p] /\
                b = false)) /\
    (forall e, fst (load_yaml_assistants E file w) = Raise e ->
               trace w' = trace w /\ b = false) /\
    (forall y, fst (load_yaml_assistants E file w) = Ok y ->
               exists rest, trace w' = trace w ++ get :: rest).
Proof.
  intros get.
  destruct (load_world E file w) as [rl Hl].
  unfold run_sync, try_except, run_sync_steps, gather_changes, bind.
  rewrite Hl. simpl fst.
  destruct rl as [y|e].
  2:{ exists false, w. split; [reflexivity|]. split; [left; auto|].
      split; [auto|discriminate]. }
  destruct (fetch_world E self w) as [rf Hf]. rewrite Hf.
  set (w1 := mk_world (clock w) (trace w ++ [EvGet (cloudflare_endpoint self)])).
  assert (Hstop : forall b,
    (trace w1 = trace w /\ b = false \/
     trace w1 = trace w ++ [get] \/
     (exists p, trace w1 = trace w ++ [get; EvPost (sync_url self) p]) \/
     (exists p, trace w1 = trace w ++ [get; EvPost (sync_url self) p;
                                       EvWrite failed_sync_file p] /\
                b = false)) /\
    (forall e, Ok y = Raise e -> trace w1 = trace w /\ b = false) /\
    (forall y0 : value, Ok y = Ok y0 -> exists rest, trace w1 = trace w ++ get :: rest)).
  { intros b. split; [right; left; reflexivity|].
    split; [discriminate|]. intros _ _. exists []. reflexivity. }
  destruct rf as [cur|e]; [|exists false, w1; split; [reflexivity|apply Hstop]].
  unfold lift.
  destruct (ys <-- as_records y ;; cs <-- as_records cur ;; detect_changes ys cs)
    as [c|e]; [|exists false, w1; split; [reflexivity|apply Hstop]].
  destruct (sync_trace E self c w1) as (r & w2 & Hs & Ht). rewrite Hs.
  assert (Hw : exists b, (match r with
                          | Ok a => (Ok a, w2)
                          | Raise _ => ret false w2
                          end) = (Ok b, w2) /\ (r = Ok false -> b = false)).
  { destruct r as [b|e]; [exists b|exists false]; split; auto; congruence. }
  destruct Hw as (b & -> & Hb). exists b, w2. split; [reflexivity|].
  split.
  - destruct Ht as [Ht|[[p Ht]|[p [Ht Hr]]]]; rewrite Ht; subst w1; simpl.
    + right. left. reflexivity.
    + right. right. left. exists p. rewrite <- app_assoc. reflexivity.
    + right. right. right. exists p. rewrite <- app_assoc. auto.
  - split; [discriminate|]. intros _ _.
    destruct Ht as [Ht|[[p Ht]|[p [Ht Hr]]]]; rewrite Ht; subst w1; simpl;
      rewrite <- ?app_assoc; simpl; eauto.
Qed.

(** When the read of the store fails with a request exception the run
    goes on as a first sync: the declared records are diffed against the
    empty list, so none is Updated, Deleted or Unchanged and each declared
    key is New. *)
Theorem unreachable_store_makes_a_first_sync E self file w y ys :
  fst (load_yaml_assistants E file w) = Ok y ->
  as_records y = Ok ys ->
  session_get E (cloudflare_endpoint self) = Raise RequestException ->
  gather_changes E self file w =
  (detect_changes ys [],
   mk_world (clock w) (trace w ++ [EvGet (cloudflare_endpoint self)])) /\
  forall c, detect_changes ys [] = Ok c ->
    ch_updated c = [] /\ ch_deleted c = [] /\ ch_unchanged c = [] /\
    keys_of (ch_new c) = seen_order (keys_of ys).
Proof.
  intros Hy Hys Hget. split.
  - destruct (load_world E file w) as [rl Hl]. rewrite Hl in Hy. simpl in Hy.
    subst rl. unfold gather_changes, bind. rewrite Hl.
    rewrite (fetch_after_request_failure _ _ _ Hget).
    unfold lift. rewrite Hys. reflexivity.
  - intros c Hc. destruct (all_new_without_live ys [] c) as (H1 & H2 & H3 & H4 & _);
      [intros x []|exact Hc|auto].
Qed.

Lemma unreachable_store_makes_a_first_sync_witness :
  fst (gather_changes first_sync_env (mk_manager "https://worker.example")
         "assistants.yaml" initial_world)
  = detect_changes [declared_a] [].
Proof.
  destruct (unreachable_store_makes_a_first_sync first_sync_env
              (mk_manager "https://worker.example") "assistants.yaml"
              initial_world (VList [VDict declared_a]) [declared_a]
              eq_refl eq_refl eq_refl) as [H _].
  rewrite H. reflexivity.
Defined.

Lemma submit_posts E self ops w :
  ops <> [] ->
  In (EvPost (sync_url self) (sync_payload E ops (clock w)))
     (trace (snd (submit E self ops w))).
Proof.
  intros Hne. rewrite (submit_outcome _ _ _ _ Hne). cbv zeta.
  destruct (session_post E _ _) as [ack|[]]; simpl; rewrite in_app_iff; simpl; auto.
Qed.

(** The dry-run flag of the command line is never read: [main] does the
    same with it and without it, and a run with the flag set and
    operations to send sends them. *)
Theorem dry_run_flag_is_ignored E a w :
  let self := mk_manager (arg_cloudflare_endpoint a) in
  main E a w =
  main E (mk_args (arg_file a) (arg_cloudflare_endpoint a) (negb (arg_dry_run a))) w /\
  (arg_dry_run a = true ->
   path_exists E (arg_file a) = true ->
   forall c w1 ops w2,
     gather_changes E self (arg_file a) w = (Ok c, w1) ->
     plan E c w1 = (Ok ops, w2) ->
     ops <> [] ->
     In (EvPost (sync_url self) (sync_payload E ops (clock w2)))
        (trace (snd (main E a w)))) /\
  trace (snd (main first_sync_env dry_run_args initial_world)) =
  [EvGet "https://worker.example";
   EvPost "https://worker.example/sync"
     (sync_payload first_sync_env
        [insert_op (dict_display declared_a
           [("isActive", VBool true);
            ("dateAdded", VStr "2024-01-01T00:00:00"); ("version", VInt 1)])]
        1)].
Proof.
  intros self. split; [reflexivity|]. split; [|reflexivity].
  intros _ Hex c w1 ops w2 Hg Hp Hne.
  pose proof (submit_posts E self ops w2 Hne) as Hin.
  unfold main. rewrite Hex. cbn [negb]. fold self.
  unfold bind, run_sync, try_except, run_sync_steps, bind.
  rewrite Hg. unfold sync_to_cloudflare, bind. rewrite Hp.
  destruct (submit E self ops w2) as [[b|e] w3]; exact Hin.
Qed.

(** ** The text of a fingerprint *)

Lemma escape_char_printable_b c : forallb printable (escape_char c) = true.
Proof. destruct c as [[] [] [] [] [] [] [] []]; reflexivity. Qed.

Lemma escape_char_printable c :
  Forall (fun x => printable x = true) (escape_char c).
Proof.
  apply Forall_forall. apply forallb_forall. apply escape_char_printable_b.
Qed.

Lemma encode_string_printable s :
  Forall (fun x => printable x = true) (encode_string s).
Proof.
  unfold encode_string. apply Forall_app. split.
  - constructor; [reflexivity|]. apply Forall_flat_map, Forall_forall.
    intros c _. apply escape_char_printable.
  - repeat constructor.
Qed.

Lemma num_char_printable c : is_num_char c = true -> printable c = true.
Proof.
  unfold is_num_char, printable.
  destruct (N.eqb_spec (N_of_ascii c) 45) as [->|_]; [reflexivity|]. simpl.
  intros H. apply andb_true_iff in H. destruct H as [H1 H2].
  apply N.leb_le in H1, H2. apply andb_true_iff. split; apply N.leb_le; lia.
Qed.

Lemma encode_int_printable z :
  Forall (fun x => printable x = true) (encode_int z).
Proof.
  eapply Forall_impl; [|apply encode_int_chars].
  intros c. apply num_char_printable.
Qed.

Lemma join_printable chunks :
  Forall (Forall (fun x => printable x = true)) chunks ->
  Forall (fun x => printable x = true) (join (str ", ") chunks).
Proof.
  induction 1 as [|c rest Hc _ IH]; [constructor|].
  rewrite join_cons. apply Forall_app. split; [exact Hc|].
  destruct rest; [constructor|].
  apply Forall_app. split; [repeat constructor|exact IH].
Qed.

Lemma encode_printable v : Forall (fun x => printable x = true) (encode v).
Proof.
  induction v as [|[]|z|s|l IH|d IH] using value_ind'; cbn [encode].
  - repeat constructor.
  - repeat constructor.
  - repeat constructor.
  - apply encode_int_printable.
  - apply encode_string_printable.
  - apply Forall_app. split; [repeat constructor|].
    apply Forall_app. split; [|repeat constructor].
    apply join_printable, Forall_forall. intros c Hc.
    apply in_map_iff in Hc. destruct Hc as (x & <- & Hx). apply IH, Hx.
  - apply Forall_app. split; [repeat constructor|].
    apply Forall_app. split; [|repeat constructor].
    apply join_printable, Forall_forall. intros c Hc.
    apply in_map_iff in Hc. destruct Hc as (kv & <- & Hkv).
    apply Forall_app. split; [apply encode_string_printable|].
    apply Forall_app. split; [repeat constructor|apply IH, Hkv].
Qed.

(** A fingerprint is printable ASCII whatever the record holds: every
    character lies between the space and the tilde, anything else in a
    string having been escaped. *)
Theorem fingerprint_is_printable_ascii assistant :
  Forall (fun c => printable c = true)
         (list_ascii_of_string (compute_assistant_hash assistant)).
Proof.
  unfold compute_assistant_hash, json_dumps_sorted.
  rewrite list_ascii_of_string_of_list_ascii. apply encode_printable.
Qed.

(** ** What an update may change *)

(** An update of a plan sets nothing but isActive and a date
    (dateDeactivated or dateDeleted): the planner never overwrites a field
    of a persisted record that the fingerprint tracks, nor its name, id or
    version. *)
Theorem planned_update_sets_bookkeeping_only E c w :
  addable_versions c ->
  exists ops w',
    plan E c w = (Ok ops, w') /\
    forall id data, In (update_op id data) ops ->
      lookup "isActive" data = Some (VBool false) /\
      (forall k, lookup k data <> None ->
                 k = "isActive" \/ k = "dateDeactivated" \/ k = "dateDeleted") /\
      (forall k, In k key_fields -> lookup k data = None).
Proof.
  intros Hadd. destruct (plan_total E c w Hadd) as (ops & w' & Hp).
  exists ops, w'. split; [exact Hp|]. intros id data Hin.
  assert (Hshape : exists t,
            data = [("isActive", VBool false); ("dateDeactivated", VStr t)] \/
            data = [("dateDeleted", VStr t); ("isActive", VBool false)]).
  { apply plan_inv in Hp. destruct Hp as (o & Ho & -> & _).
    rewrite !in_app_iff in Hin. destruct Hin as [Hin|[Hin|Hin]].
    - apply new_ops_origin in Hin. destruct Hin as (d & m & _ & He).
      discriminate He.
    - destruct (updated_ops_origin _ _ _ _ _ Ho Hin) as (u & m & ver & _ & [He|He]).
      + injection He as _ ->. eauto.
      + discriminate He.
    - apply deleted_ops_origin in Hin. destruct Hin as (a & m & _ & He).
      injection He as _ ->. eauto. }
  destruct Hshape as [t [-> | ->]].
  - split; [reflexivity|]. split.
    + intros k. simpl.
      destruct (String.eqb_spec k "isActive") as [->|_]; [auto|].
      destruct (String.eqb_spec k "dateDeactivated") as [->|_]; [auto|].
      intros H. congruence.
    + intros k Hk. simpl in Hk.
      repeat (destruct Hk as [<-|Hk]; [reflexivity|]). contradiction.
  - split; [reflexivity|]. split.
    + intros k. simpl.
      destruct (String.eqb_spec k "dateDeleted") as [->|_]; [auto|].
      destruct (String.eqb_spec k "isActive") as [->|_]; [auto|].
      intros H. congruence.
    + intros k Hk. simpl in Hk.
      repeat (destruct Hk as [<-|Hk]; [reflexivity|]). contradiction.
Qed.

Lemma planned_update_sets_bookkeeping_only_witness :
  exists ops w', plan quiet_env versioned_update initial_world = (Ok ops, w').
Proof.
  destruct (planned_update_sets_bookkeeping_only quiet_env versioned_update
              initial_world) as (ops & w' & Hp & _).
  - intros u [<-|[]]. eexists. reflexivity.
  - exists ops, w'. exact Hp.
Defined.
